(** * UIBridge: declared event chains and their consumption

    A shallow embedding of the event-chain engine of ag-ui-client:
    the chain builder ([UIChainBuilder]: add, sleep, batch, meta, build) and
    the bridge ([UIBridge]: on, chain, consume, hasChain, getChains, clear,
    _executeChain), followed by the properties the specification states
    about them.

    Conventions of the embedding.
    - A JavaScript value is a [value]; an object is an association list in
      insertion order, read with [get] and written with [fset].
    - [Date.now()] is a parameter of the operations that call it.
    - A user handler is described by what it does with the three arguments
      it is given: its calls to [next] and [stop] and how it completes.
    - Within the dispatch of one step the host's event loop is modelled by
      virtual time: time [0] is the synchronous turn of the dispatch, time
      [1] the microtasks that follow it, time [1 + d] what happens [d]
      milliseconds later.
    - [_executeChain] is an async function: a call runs until it reaches an
      [await] and goes on in a later turn. Between the two any other call
      may be made on the bridge, so a chain in flight meets the listeners
      as they are when each of its steps is reached. The turns of a program
      are taken one after the other, in any order ([apply_ops]). *)

From Stdlib Require Import ZArith String List Lia.
From stdpp Require Import gmap strings list fin_maps.
Import ListNotations.
Local Open Scope string_scope.

(** ** JavaScript values

    The values that flow through the engine: primitives and plain objects.
    Numbers are the integers among the doubles; functions and thenables are
    no values here: a promise that a handler returns is a [completion] of
    its own, one that it hands to the continuation an [argument] of its
    own. *)

#[warnings="-register-all"]
Inductive value : Type :=
| VUndef
| VNull
| VBool (b : bool)
| VNum (z : Z)
| VStr (s : string)
| VObj (fields : list (string * value)).

(** The empty object literal [{}]. *)
Definition empty_obj : value := VObj [].

(** JavaScript truthiness ([!!v]). *)
Definition truthy (v : value) : bool :=
  match v with
  | VUndef | VNull => false
  | VBool b => b
  | VNum z => negb (z =? 0)%Z
  | VStr s => negb (String.eqb s "")
  | VObj _ => true
  end.

(** [a || b]. *)
Definition js_or (a b : value) : value := if truthy a then a else b.

(** [v !== undefined]. *)
Definition is_defined (v : value) : bool :=
  match v with VUndef => false | _ => true end.

(** [typeof v === "object" && v !== null]. *)
Definition is_object (v : value) : bool :=
  match v with VObj _ => true | _ => false end.

Fixpoint assoc_get (k : string) (fs : list (string * value)) : value :=
  match fs with
  | [] => VUndef
  | (k', v) :: fs' => if String.eqb k k' then v else assoc_get k fs'
  end.

(** Writing a key: an existing key keeps its position, a new key goes last. *)
Fixpoint fset (k : string) (v : value) (fs : list (string * value))
  : list (string * value) :=
  match fs with
  | [] => [(k, v)]
  | (k', v') :: fs' =>
      if String.eqb k k' then (k, v) :: fs' else (k', v') :: fset k v fs'
  end.

(** [v?.k]: a property read; it yields [undefined] off a non-object (the
    built-in properties of strings are not modelled). *)
Definition get (k : string) (v : value) : value :=
  match v with
  | VObj fs => assoc_get k fs
  | _ => VUndef
  end.

(** The own enumerable properties copied by a spread [{...v}]; props are
    objects by their type, and [null] and [undefined] spread to nothing. *)
Definition own_fields (v : value) : list (string * value) :=
  match v with
  | VObj fs => fs
  | _ => []
  end.

(** [{...a, ...b}]. *)
Definition spread2 (a b : value) : value :=
  VObj (fold_left (fun acc kv => fset (fst kv) (snd kv) acc)
                  (own_fields b) (own_fields a)).

(** [{...p, prev: c}]. *)
Definition with_prev (p c : value) : value :=
  VObj (fset "prev" c (own_fields p)).

(** ** Chain records *)

Record UIEventChainItem := { event : string; props : value }.

(** A batch item; [bprops] is [VUndef] when the optional field is absent. *)
Record UIEventBatchItem := { bevent : string; bprops : value }.

Record DeclaredChain := {
  chain_id : string;
  items : list UIEventChainItem;
  createdAt : Z;
  metadata : value
}.

(** The reserved event name of a delay step. *)
Definition SLEEP_EVENT : string := "__SLEEP__".

(** ** The chain builder, on values *)

Module Builder.

Record UIChainBuilder := {
  chainId : string;
  b_items : list UIEventChainItem;
  b_metadata : value
}.

(** [new UIChainBuilder(chainId)] *)
Definition create (cid : string) : UIChainBuilder :=
  {| chainId := cid; b_items := []; b_metadata := empty_obj |}.

(** [add(event, props = {})]: the default applies to an [undefined]
    argument. *)
Definition add (ev : string) (p : value) (b : UIChainBuilder)
  : UIChainBuilder :=
  let p' := if is_defined p then p else empty_obj in
  {| chainId := chainId b;
     b_items := b_items b ++ [{| event := ev; props := p' |}];
     b_metadata := b_metadata b |}.

(** [sleep(duration)] *)
Definition sleep (duration : value) (b : UIChainBuilder) : UIChainBuilder :=
  add SLEEP_EVENT (VObj [("duration", duration)]) b.

(** The body of the [forEach] callback of [batch]. *)
Definition batch_item (b : UIChainBuilder) (item : UIEventBatchItem)
  : UIChainBuilder :=
  if String.eqb (bevent item) "sleep"
     && truthy (get "duration" (bprops item))
  then sleep (get "duration" (bprops item)) b
  else add (bevent item) (js_or (bprops item) empty_obj) b.

(** [batch(events)] *)
Definition batch (events : list UIEventBatchItem) (b : UIChainBuilder)
  : UIChainBuilder :=
  fold_left batch_item events b.

(** [meta(metadata)] *)
Definition meta (m : value) (b : UIChainBuilder) : UIChainBuilder :=
  {| chainId := chainId b;
     b_items := b_items b;
     b_metadata := spread2 (b_metadata b) m |}.

(** [build()], with [now] the value of [Date.now()]. *)
Definition build (now : Z) (b : UIChainBuilder) : DeclaredChain :=
  {| chain_id := chainId b;
     items := b_items b;
     createdAt := now;
     metadata := VObj (own_fields (b_metadata b)) |}.

End Builder.

(** ** Handlers and the wrapper installed by [on] *)

(** The fate of a promise (or any thenable) that a handler makes: settled
    [delay] milliseconds after the dispatch, or never. A delay of [0] is
    that of a promise settled in the turn of the dispatch. *)
Inductive settle :=
| Fulfils (delay : nat) (v : value)
| Rejects (delay : nat) (e : value)
| NeverSettles.

(** What the continuation is called with: a value that is no thenable, or
    a thenable with its fate. *)
Inductive argument :=
| Plain (v : value)
| Thenable (fate : settle).

(** What a handler does with the [next] and [stop] it is given. *)
Inductive action :=
| CallNext (arg : argument)
| CallStop.

(** How the call [callback(props, next, stop)] completes. [Returns] carries
    a value that is not a thenable. *)
Inductive completion :=
| Returns (result : value)
| Throws (e : value)
| ReturnsPromise (s : settle).

(** One run of a handler: what it does before it returns or throws, how it
    completes, and what it does later (from timers or after its own awaits),
    each later action with the milliseconds after the dispatch. An action
    stamped no later than the settlement of the returned promise happens
    before the wrapper resumes from its [await]. *)
Record behaviour := {
  sync_acts : list action;
  outcome : completion;
  async_acts : list (nat * action)
}.

(** [UIEventHandler]: the behaviour may depend on the props received. *)
Definition UIEventHandler := value -> behaviour.

Inductive caller := ByHandler | ByWrapper | ByBuiltin.

(** One invocation of the continuation [next]. *)
Record call := { c_time : nat; c_who : caller; c_arg : argument }.

(** What a listener does when the emitter calls it. *)
Record listener_run := {
  calls : list call;
  errors : list (string * value);   (* console.error: event name, error *)
  raised : option value             (* an exception escaping to [emit] *)
}.

Definition is_stop (a : action) : bool :=
  match a with CallStop => true | CallNext _ => false end.

(** [isStopped] when the call to the handler has returned or thrown. *)
Definition stopped_sync (b : behaviour) : bool := existsb is_stop (sync_acts b).

(** [isStopped] when the wrapper resumes from an await settled at [d]. *)
Definition stopped_until (d : nat) (b : behaviour) : bool :=
  stopped_sync b
  || existsb (fun ta => (fst ta <=? d)%nat && is_stop (snd ta)) (async_acts b).

(** [stop] was called at some time. *)
Definition stopped_ever (b : behaviour) : bool :=
  stopped_sync b || existsb (fun ta => is_stop (snd ta)) (async_acts b).

Definition next_args (t : nat) (a : action) : list call :=
  match a with
  | CallNext v => [{| c_time := t; c_who := ByHandler; c_arg := v |}]
  | CallStop => []
  end.

(** The calls to [next] made by the handler itself. *)
Definition handler_calls (b : behaviour) : list call :=
  flat_map (next_args 0) (sync_acts b)
  ++ flat_map (fun ta => next_args (S (fst ta)) (snd ta)) (async_acts b).

(** The wrapper calls the continuation with props, with an object the
    handler gave, or with an object it makes: never with a thenable, which
    it awaits first. *)
Definition wrapper_call (t : nat) (v : value) : call :=
  {| c_time := t; c_who := ByWrapper; c_arg := Plain v |}.

(** The argument the wrapper gives to [next] for a handler result. *)
Definition forwarded (props result : value) : value :=
  if is_defined result then
    if is_object result then result
    else VObj [("value", result); ("prev", props)]
  else props.

(** [wrappedCallback(props, next)] of [on(event, callback)]. *)
Definition wrappedCallback (ev : string) (callback : UIEventHandler)
    (props : value) : listener_run :=
  let b := callback props in
  let own := handler_calls b in
  match outcome b with
  | Throws e =>
      (* catch *)
      {| calls := own ++ (if stopped_sync b then []
                          else [wrapper_call 0 props]);
         errors := [(ev, e)];
         raised := None |}
  | Returns result =>
      {| calls := own ++ (if stopped_sync b then []
                          else [wrapper_call 0 (forwarded props result)]);
         errors := [];
         raised := None |}
  | ReturnsPromise s =>
      if stopped_sync b then
        {| calls := own; errors := []; raised := None |}
      else
        match s with
        | Fulfils d awaited =>
            {| calls := own ++ (if stopped_until d b then []
                                else [wrapper_call (S d)
                                        (forwarded props awaited)]);
               errors := [];
               raised := None |}
        | Rejects d e =>
            (* catch *)
            {| calls := own ++ (if stopped_until d b then []
                                else [wrapper_call (S d) props]);
               errors := [(ev, e)];
               raised := None |}
        | NeverSettles =>
            {| calls := own; errors := []; raised := None |}
        end
  end.

Definition by_wrapper (c : call) : bool :=
  match c_who c with ByWrapper => true | _ => false end.

(** The calls made by the wrapper itself. *)
Definition wrapper_calls (r : listener_run) : list call :=
  List.filter by_wrapper (calls r).

(** The greatest delay a timer of the host takes, [2^31 - 1]. *)
Definition TIMEOUT_MAX : Z := 2147483647.

(** The delay, in milliseconds, that [setTimeout] makes of its second
    argument, as Node does: a number from [1] to [TIMEOUT_MAX] is taken as
    it is, any other number counts as [1]. A duration is a number by its
    type; of a value that is none the conversion to a number is not
    modelled, it counts as [1] (as [undefined], [null] and objects do in
    the host; a string of digits does not). *)
Definition timer_delay (v : value) : nat :=
  match v with
  | VNum z =>
      if (1 <=? z)%Z && (z <=? TIMEOUT_MAX)%Z then Z.to_nat z else 1%nat
  | _ => 1%nat
  end.

(** [v == null]: [null] or [undefined]. *)
Definition nullish (v : value) : bool :=
  match v with VUndef | VNull => true | _ => false end.

(** The listener registered by the constructor for [SLEEP_EVENT]. It is not
    wrapped: destructuring props that are [null] or [undefined] throws. *)
Definition sleepListener (props : value) : listener_run :=
  if nullish props then
    {| calls := []; errors := []; raised := Some (VStr "TypeError") |}
  else
    let duration :=
      if is_defined (get "duration" props) then get "duration" props
      else VNum 0 in
    {| calls := [{| c_time := S (timer_delay duration);
                    c_who := ByBuiltin;
                    c_arg := Plain (js_or (get "prev" props) empty_obj) |}];
       errors := [];
       raised := None |}.

(** ** The emitter

    The dispatch substrate is the eventemitter3 package, which is not part
    of the repository. Its contract as the bridge uses it: listeners of an
    event are kept in registration order; [emit] calls them one after the
    other in the current turn and ignores what they return; an exception
    thrown by a listener ends [emit] and reaches its caller. *)

Inductive listener :=
| BuiltinSleep
| Wrapped (ev : string) (callback : UIEventHandler).

(** A registered listener; [reg_id] stands for the identity of the function
    object, by which [off] finds it. *)
Record registration := { reg_id : nat; reg_fn : listener }.

Record EventEmitter := {
  registered : gmap string (list registration);
  next_reg : nat
}.

Definition listeners (event : string) (em : EventEmitter) : list registration :=
  default [] (registered em !! event).

Definition listenerCount (event : string) (em : EventEmitter) : nat :=
  length (listeners event em).

Definition emitter_on (event : string) (fn : listener) (em : EventEmitter)
  : EventEmitter * nat :=
  ({| registered :=
        <[event := (listeners event em
                    ++ [{| reg_id := next_reg em; reg_fn := fn |}])%list]>
          (registered em);
      next_reg := S (next_reg em) |},
   next_reg em).

Definition emitter_off (event : string) (rid : nat) (em : EventEmitter)
  : EventEmitter :=
  let kept := List.filter (fun r => negb (reg_id r =? rid)%nat)
                          (listeners event em) in
  {| registered :=
       match kept with
       | [] => delete event (registered em)
       | _ => <[event := kept]> (registered em)
       end;
     next_reg := next_reg em |}.

Definition run_listener (l : listener) (props : value) : listener_run :=
  match l with
  | BuiltinSleep => sleepListener props
  | Wrapped ev callback => wrappedCallback ev callback props
  end.

Fixpoint emit_all (ls : list registration) (props : value) : listener_run :=
  match ls with
  | [] => {| calls := []; errors := []; raised := None |}
  | r :: ls' =>
      let run := run_listener (reg_fn r) props in
      match raised run with
      | Some _ => run
      | None =>
          let rest := emit_all ls' props in
          {| calls := calls run ++ calls rest;
             errors := errors run ++ errors rest;
             raised := raised rest |}
      end
  end.

(** [emit(event, props, next)] *)
Definition emit (event : string) (props : value) (em : EventEmitter)
  : listener_run :=
  emit_all (listeners event em) props.

(** The order in which calls to the continuation happen: by time, calls of
    the same time in the order in which they were issued, which is that of
    the listeners. A call after an await on a promise settled in the turn of
    the dispatch has time [1]; a timer takes a millisecond at least, so the
    call it makes has time [2] or more and comes after. *)
Fixpoint insert_call (c : call) (l : list call) : list call :=
  match l with
  | [] => [c]
  | c' :: l' =>
      if (c_time c <=? c_time c')%nat then c :: l
      else c' :: insert_call c l'
  end.

Definition schedule (l : list call) : list call := foldr insert_call [] l.

(** ** The bridge *)

Record UIBridge := {
  _emitter : EventEmitter;
  _declaredChains : gmap string DeclaredChain
}.

(** [new UIBridge()]: the constructor registers the sleep listener. *)
Definition new_UIBridge : UIBridge :=
  {| _emitter :=
       fst (emitter_on SLEEP_EVENT BuiltinSleep
              {| registered := ∅; next_reg := 0 |});
     _declaredChains := ∅ |}.

(** [on(event, callback)]: the bridge after the registration, and the
    identity of the wrapper, which the returned function unsubscribes. *)
Definition on (ev : string) (callback : UIEventHandler) (br : UIBridge)
  : UIBridge * nat :=
  let '(em, rid) := emitter_on ev (Wrapped ev callback) (_emitter br) in
  ({| _emitter := em; _declaredChains := _declaredChains br |}, rid).

(** The function returned by [on(event, callback)]. *)
Definition unsubscribe (ev : string) (rid : nat) (br : UIBridge) : UIBridge :=
  {| _emitter := emitter_off ev rid (_emitter br);
     _declaredChains := _declaredChains br |}.

(** [chain(chainId)] makes a builder behind a proxy whose [add], [sleep],
    [batch] and [meta] are the builder's. *)
Definition chain (cid : string) : Builder.UIChainBuilder := Builder.create cid.

(** [build] of the proxy returned by [chain(chainId)]. *)
Definition chain_build (now : Z) (b : Builder.UIChainBuilder) (br : UIBridge)
  : UIBridge * DeclaredChain :=
  let c := Builder.build now b in
  ({| _emitter := _emitter br;
      _declaredChains := <[Builder.chainId b := c]> (_declaredChains br) |},
   c).

(** [hasChain(chainId)] *)
Definition hasChain (cid : string) (br : UIBridge) : bool :=
  bool_decide (is_Some (_declaredChains br !! cid)).

(** [getChains()]: a new map with the same entries. *)
Definition getChains (br : UIBridge) : gmap string DeclaredChain :=
  _declaredChains br.

(** [clear(chainId?)]: the test [if (chainId)] is one of truthiness, so the
    empty string clears every chain as an absent argument does. *)
Definition clear (cid : option string) (br : UIBridge) : UIBridge :=
  {| _emitter := _emitter br;
     _declaredChains :=
       match cid with
       | Some c =>
           if negb (String.eqb c "") then delete c (_declaredChains br)
           else ∅
       | None => ∅
       end |}.

(** Where a call of [_executeChain] stands when a turn ends, and with it
    the promise it returned: the call has returned [v]; it is at an [await]
    on a promise that rejects with [e], which rejects the call; it is at an
    [await] on a promise that never settles; or it is at an [await] on a
    promise that fulfils with [nextProps], after which the loop goes on
    with the steps [rest], in a turn of its own. What the awaited promise
    comes to is up to the calls that the listeners of the dispatch make,
    whatever else happens on the bridge in the meantime. *)
Inductive run_state :=
| Resolved (v : value)
| Rejected (e : value)
| Pending
| Awaits (nextProps : value) (rest : list UIEventChainItem).

(** One iteration of the loop of [_executeChain]. *)
Record step_record := {
  s_event : string;
  s_props : value;          (* eventProps *)
  s_dispatched : bool       (* whether [emit] was called *)
}.

(** What a call of [_executeChain] does in one turn: the steps it begins,
    the errors their listeners log, in the turn or after it, and where it
    stands then. *)
Record chain_run := {
  history : list step_record;
  logged : list (string * value);
  result : run_state
}.

Definition after_step (s : step_record) (errs : list (string * value))
    (r : chain_run) : chain_run :=
  {| history := s :: history r;
     logged := (errs ++ logged r)%list;
     result := result r |}.

(** The default of a parameter [nextProps = {}]: it stands in for
    [undefined] and for nothing else. *)
Definition resolve_with (arg : value) : value :=
  if is_defined arg then arg else empty_obj.

(** What becomes of the promise awaited in the loop: it fulfils, it
    rejects, or it never settles. *)
Inductive step_end :=
| Goes (nextProps : value)
| Fails (e : value)
| Stalls.

(** The continuation given to [emit],
    [(nextProps = {}) => resolve(nextProps)], called with [arg]. [resolve]
    adopts a thenable: the promise then settles as the thenable does, and
    the parameter default has no part in what it fulfils with. *)
Definition resolve (arg : argument) : step_end :=
  match arg with
  | Plain v => Goes (resolve_with v)
  | Thenable (Fulfils _ v) => Goes v
  | Thenable (Rejects _ e) => Fails e
  | Thenable NeverSettles => Stalls
  end.

(** What the first call to the continuation makes of the promise awaited in
    the loop, when nothing is raised; the promise ignores the later calls.
    Without any call the promise is left as it is. *)
Definition awaited (run : listener_run) : option step_end :=
  match schedule (calls run) with
  | [] => None
  | c :: _ => Some (resolve (c_arg c))
  end.

(** What becomes of the promise awaited in the loop. An exception raised
    by [emit] inside the promise's executor rejects the promise, unless a
    listener has called the continuation before, in the same turn. *)
Definition settle_step (run : listener_run) : step_end :=
  match raised run, schedule (calls run) with
  | Some e, c :: _ =>
      if (c_time c =? 0)%nat then resolve (c_arg c) else Fails e
  | Some e, [] => Fails e
  | None, c :: _ => resolve (c_arg c)
  | None, [] => Stalls
  end.

(** Where the call stands at the [await] of a dispatched step. *)
Definition suspended (e : step_end) (rest : list UIEventChainItem)
  : run_state :=
  match e with
  | Goes nextProps => Awaits nextProps rest
  | Fails e => Rejected e
  | Stalls => Pending
  end.

(** [_executeChain(items)] from the top of its loop, with [prevProps] and
    the steps [its] still to run, for one turn: up to the first step that
    has a listener, at whose [await] the call is suspended, or to the end.
    [em] is the emitter as it is in this turn. The steps without listener
    are passed in the turn itself, there is no [await] on their path. *)
Fixpoint _executeChain (em : EventEmitter) (its : list UIEventChainItem)
    (prevProps : value) : chain_run :=
  match its with
  | [] => {| history := []; logged := []; result := Resolved prevProps |}
  | item :: rest =>
      let eventProps := with_prev (props item) prevProps in
      if (0 <? listenerCount (event item) em)%nat then
        let run := emit (event item) eventProps em in
        {| history := [{| s_event := event item; s_props := eventProps;
                          s_dispatched := true |}];
           logged := errors run;
           result := suspended (settle_step run) rest |}
      else
        after_step {| s_event := event item; s_props := eventProps;
                      s_dispatched := false |} []
                   (_executeChain em rest eventProps)
  end.

Inductive console_line :=
| Warn_not_found (chainId : string)
| Log_consuming (chainId : string) (n : nat)
| Error_in_handler (ev : string) (e : value).

(** What a call to [consume] has done so far besides changing the store:
    the lines on the console, the steps begun, and the state of the promise
    it returned. *)
Record consumption := {
  console : list console_line;
  steps : list step_record;
  promise : run_state
}.

Definition error_line (ee : string * value) : console_line :=
  Error_in_handler (fst ee) (snd ee).

(** [consume(chainId)]: the bridge and the consumption when the call
    returns. The store is read and written before [_executeChain] is
    entered, and [_executeChain] runs in the call up to its first
    [await]. *)
Definition consume (cid : string) (br : UIBridge) : UIBridge * consumption :=
  match _declaredChains br !! cid with
  | None =>
      (br, {| console := [Warn_not_found cid];
              steps := [];
              promise := Resolved VUndef |})
  | Some c =>
      let br' := {| _emitter := _emitter br;
                    _declaredChains := delete cid (_declaredChains br) |} in
      let run := _executeChain (_emitter br') (items c) empty_obj in
      (br', {| console :=
                 Log_consuming cid (length (items c))
                 :: map error_line (logged run);
               steps := history run;
               promise := result run |})
  end.

(** A consumption goes on from its [await] once the promise has fulfilled:
    the loop takes up the steps still to run, on the listeners the bridge
    has in that turn. A consumption that is not at such an [await] stays
    as it is. *)
Definition resume (em : EventEmitter) (r : consumption) : consumption :=
  match promise r with
  | Awaits nextProps rest =>
      let run := _executeChain em rest nextProps in
      {| console := (console r ++ map error_line (logged run))%list;
         steps := (steps r ++ history run)%list;
         promise := result run |}
  | _ => r
  end.

(** The turns of a program on a bridge: a call of one of the bridge's
    methods, or the consumption made by the [k]th call of [consume] going
    on from its [await]. The host runs one turn to its end before it starts
    another; in which order the turns come is up to the program and to the
    timing of the handlers, so that every order is considered. *)
Inductive bridge_op :=
| OpBuild (now : Z) (b : Builder.UIChainBuilder)
| OpClear (cid : option string)
| OpConsume (cid : string)
| OpOn (ev : string) (callback : UIEventHandler)
| OpUnsubscribe (ev : string) (rid : nat)
| OpResume (k : nat).

(** A bridge and the consumptions made on it, each as far as it has come,
    in the order of the calls. *)
Abbreviation session := (UIBridge * list (string * consumption))%type.

Definition apply_op (o : bridge_op) (s : session) : session :=
  match o with
  | OpBuild now b => (fst (chain_build now b (fst s)), snd s)
  | OpClear cid => (clear cid (fst s), snd s)
  | OpConsume cid =>
      (fst (consume cid (fst s)),
       (snd s ++ [(cid, snd (consume cid (fst s)))])%list)
  | OpOn ev callback => (fst (on ev callback (fst s)), snd s)
  | OpUnsubscribe ev rid => (unsubscribe ev rid (fst s), snd s)
  | OpResume k =>
      (fst s,
       alter (fun ir => (fst ir, resume (_emitter (fst s)) (snd ir))) k
             (snd s))
  end.

(** A sequence of turns. *)
Definition apply_ops (os : list bridge_op) (s : session) : session :=
  fold_left (fun s' o => apply_op o s') os s.

(** The consumption made by a call of [consume] on [br], followed by the
    turns [later]: the consumption is the first of the session. The
    consumptions made before the call are left out: as they go on they do
    not touch the bridge. What a handler calls on the bridge while it runs
    counts as a turn after that of its dispatch: within a turn the executor
    asks for the listeners and dispatches at once, and the emitter calls the
    listeners that it found. *)
Definition consume_then (cid : string) (later : list bridge_op)
    (br : UIBridge) : session :=
  apply_ops later (fst (consume cid br), [(cid, snd (consume cid br))]).


(** ** The chain builder, on references

    [build] copies with spreads, and what a spread copies is references.
    To tell which objects a built chain shares with its builder and with the
    caller, this second model of the builder keeps objects and arrays in a
    heap. A location is an index into the heap, so a new object never takes
    the place of an old one. *)

Module Refs.

Abbreviation loc := nat.

(** What a variable or a property holds. *)
Inductive rvalue :=
| RUndef
| RNull
| RBool (b : bool)
| RNum (z : Z)
| RStr (s : string)
| RRef (l : loc).

Inductive cell :=
| CObject (fields : list (string * rvalue))
| CArray (elems : list rvalue).

Abbreviation heap := (list cell).

Definition alloc (c : cell) (h : heap) : heap * loc :=
  ((h ++ [c])%list, length h).

Fixpoint rassoc (k : string) (fs : list (string * rvalue)) : rvalue :=
  match fs with
  | [] => RUndef
  | (k', v) :: fs' => if String.eqb k k' then v else rassoc k fs'
  end.

Fixpoint rset (k : string) (v : rvalue) (fs : list (string * rvalue))
  : list (string * rvalue) :=
  match fs with
  | [] => [(k, v)]
  | (k', v') :: fs' =>
      if String.eqb k k' then (k, v) :: fs' else (k', v') :: rset k v fs'
  end.

(** The own properties of the object [v] refers to. *)
Definition fields_of (h : heap) (v : rvalue) : list (string * rvalue) :=
  match v with
  | RRef l => match h !! l with Some (CObject fs) => fs | _ => [] end
  | _ => []
  end.

(** The elements of the array at [l]. *)
Definition elems_of (h : heap) (l : loc) : list rvalue :=
  match h !! l with Some (CArray es) => es | _ => [] end.

(** [v.k] *)
Definition field (h : heap) (v : rvalue) (k : string) : rvalue :=
  rassoc k (fields_of h v).

(** [v[i]] *)
Definition index (h : heap) (v : rvalue) (i : nat) : rvalue :=
  match v with
  | RRef l => default RUndef (elems_of h l !! i)
  | _ => RUndef
  end.

(** [o.k = v] on the object at [l]. *)
Definition write_field (l : loc) (k : string) (v : rvalue) (h : heap) : heap :=
  match h !! l with
  | Some (CObject fs) => <[l := CObject (rset k v fs)]> h
  | _ => h
  end.

(** [a.push(x)] on the array at [l]. *)
Definition push (l : loc) (x : rvalue) (h : heap) : heap :=
  match h !! l with
  | Some (CArray es) => <[l := CArray (es ++ [x])]> h
  | _ => h
  end.

(** The builder object: [items] and [metadata] hold references. *)
Record UIChainBuilder := {
  chainId : string;
  items : loc;
  metadata : loc
}.

(** [new UIChainBuilder(chainId)] *)
Definition create (cid : string) (h : heap) : heap * UIChainBuilder :=
  let '(h1, li) := alloc (CArray []) h in
  let '(h2, lm) := alloc (CObject []) h1 in
  (h2, {| chainId := cid; items := li; metadata := lm |}).

(** [add(event, props = {})] *)
Definition add (ev : string) (p : rvalue) (b : UIChainBuilder) (h : heap)
  : heap :=
  let '(h1, p') :=
    match p with
    | RUndef => let '(h', l) := alloc (CObject []) h in (h', RRef l)
    | _ => (h, p)
    end in
  let '(h2, ls) := alloc (CObject [("event", RStr ev); ("props", p')]) h1 in
  push (items b) (RRef ls) h2.

(** [sleep(duration)] *)
Definition sleep (duration : rvalue) (b : UIChainBuilder) (h : heap) : heap :=
  let '(h1, lp) := alloc (CObject [("duration", duration)]) h in
  add SLEEP_EVENT (RRef lp) b h1.

(** [meta(metadata)] *)
Definition meta (m : rvalue) (b : UIChainBuilder) (h : heap)
  : heap * UIChainBuilder :=
  let merged :=
    fold_left (fun acc kv => rset (fst kv) (snd kv) acc)
              (fields_of h m) (fields_of h (RRef (metadata b))) in
  let '(h1, lm) := alloc (CObject merged) h in
  (h1, {| chainId := chainId b; items := items b; metadata := lm |}).

(** The locations of a built chain record and of what it holds. *)
Record built := { b_chain : loc; b_array : loc; b_meta : loc }.

(** [build()] *)
Definition build (now : Z) (b : UIChainBuilder) (h : heap) : heap * built :=
  let '(h1, la) := alloc (CArray (elems_of h (items b))) h in
  let '(h2, lm) := alloc (CObject (fields_of h1 (RRef (metadata b)))) h1 in
  let '(h3, lc) :=
    alloc (CObject [("id", RStr (chainId b)); ("items", RRef la);
                    ("createdAt", RNum now); ("metadata", RRef lm)]) h2 in
  (h3, {| b_chain := lc; b_array := la; b_meta := lm |}).

(** [build] of the proxy: the record goes into the store under the
    builder's id. *)
Definition chain_build (now : Z) (b : UIChainBuilder)
    (st : gmap string loc) (h : heap) : heap * gmap string loc * built :=
  let '(h', r) := build now b h in
  (h', <[chainId b := b_chain r]> st, r).

(** The calls a holder of the builder can make on it. *)
Inductive builder_op :=
| BAdd (ev : string) (p : rvalue)
| BSleep (duration : rvalue)
| BMeta (m : rvalue)
| BBuild (now : Z).

Definition apply_builder_op (o : builder_op) (b : UIChainBuilder) (h : heap)
  : heap * UIChainBuilder :=
  match o with
  | BAdd ev p => (add ev p b h, b)
  | BSleep d => (sleep d b h, b)
  | BMeta m => meta m b h
  | BBuild now => (fst (build now b h), b)
  end.

Fixpoint apply_builder_ops (os : list builder_op) (b : UIChainBuilder)
    (h : heap) : heap * UIChainBuilder :=
  match os with
  | [] => (h, b)
  | o :: os' =>
      let '(h1, b1) := apply_builder_op o b h in
      apply_builder_ops os' b1 h1
  end.

(** The builder's references point into the heap. *)
Definition valid (b : UIChainBuilder) (h : heap) : Prop :=
  items b < length h ∧ metadata b < length h.

End Refs.

(** ** The immediate bridge (lib/event-bridge/instance.ts)

    The older bridge keeps one queue of events and processes it as soon as
    an event is added. Its wrapper is synchronous, and the continuation it
    hands to a listener starts the next event at once, inside the call: a
    turn of this bridge is a nest of calls. A turn is modelled as a function
    on the bridge and on what it has done so far; the host decides when a
    timer fires, which is one more turn ([fire]). Handlers are described as
    for the declared chains, without promises: this wrapper awaits
    nothing. What a handler may call on the bridge itself is not part of
    the description. *)

Module Immediate.

(** What a handler does, in order: call [next], call [stop], or arrange for
    [next] to be called later. *)
Inductive act :=
| Next (arg : value)
| Stop
| NextLater (delay : nat) (arg : value).

Inductive ending :=
| Returns (result : value)
| Throws (e : value).

Record handler_run := { acts : list act; ends : ending }.

Definition UIEventHandler := value -> handler_run.

Inductive listener :=
| BuiltinSleep
| Wrapped (ev : string) (callback : UIEventHandler).

Record UIBridge := {
  _emitter : gmap string (list listener);
  _eventChain : list UIEventChainItem;
  _isProcessing : bool
}.

(** What the bridge has done: the events emitted with their props, the
    errors logged, the timers set (delay and the argument for [next]). *)
Record effects := {
  emitted : list (string * value);
  logged : list (string * value);
  timers : list (nat * value)
}.

Abbreviation world := (UIBridge * effects)%type.

Definition no_effects : effects :=
  {| emitted := []; logged := []; timers := [] |}.

Definition set_chain (q : list UIEventChainItem) (w : world) : world :=
  ({| _emitter := _emitter (fst w); _eventChain := q;
      _isProcessing := _isProcessing (fst w) |}, snd w).

Definition set_processing (p : bool) (w : world) : world :=
  ({| _emitter := _emitter (fst w); _eventChain := _eventChain (fst w);
      _isProcessing := p |}, snd w).

Definition note_emit (ev : string) (p : value) (w : world) : world :=
  (fst w, {| emitted := (emitted (snd w) ++ [(ev, p)])%list;
             logged := logged (snd w); timers := timers (snd w) |}).

Definition note_error (ev : string) (e : value) (w : world) : world :=
  (fst w, {| emitted := emitted (snd w);
             logged := (logged (snd w) ++ [(ev, e)])%list;
             timers := timers (snd w) |}).

Definition set_timer (delay : nat) (arg : value) (w : world) : world :=
  (fst w, {| emitted := emitted (snd w); logged := logged (snd w);
             timers := (timers (snd w) ++ [(delay, arg)])%list |}).

Definition listeners (ev : string) (w : world) : list listener :=
  default [] (_emitter (fst w) !! ev).

(** One action of a handler, given the continuation; the flag is
    [isStopped]. *)
Definition perform (next : value -> world -> world) (sw : bool * world)
    (a : act) : bool * world :=
  match a with
  | Next v => (fst sw, next v (snd sw))
  | Stop => (true, snd sw)
  | NextLater d v => (fst sw, set_timer d v (snd sw))
  end.

(** [wrappedCallback(props, next)] of [on(event, callback)]. *)
Definition wrappedCallback (next : value -> world -> world) (ev : string)
    (callback : UIEventHandler) (props : value) (w : world) : world :=
  let r := callback props in
  let '(isStopped, w1) := fold_left (perform next) (acts r) (false, w) in
  match ends r with
  | Throws e =>
      (* catch *)
      let w2 := note_error ev e w1 in
      if isStopped then w2 else next props w2
  | Returns result =>
      if isStopped then w1
      else if is_defined result then
        if is_object result then next result w1
        else next (VObj [("value", result); ("prev", props)]) w1
      else next props w1
  end.

(** The listener registered by the constructor for [SLEEP_EVENT];
    [_processNextEvent] calls it on an object. *)
Definition sleepListener (props : value) (w : world) : world :=
  let duration :=
    if is_defined (get "duration" props) then get "duration" props
    else VNum 0 in
  set_timer (timer_delay duration) (js_or (get "prev" props) empty_obj) w.

Definition run_listener (next : value -> world -> world) (l : listener)
    (props : value) (w : world) : world :=
  match l with
  | BuiltinSleep => sleepListener props w
  | Wrapped ev callback => wrappedCallback next ev callback props w
  end.

(** [emit(event, props, next)]: the listeners one after the other. *)
Definition emit (next : value -> world -> world) (ls : list listener)
    (props : value) (w : world) : world :=
  fold_left (fun w' l => run_listener next l props w') ls w.

(** [_processNextEvent(prevProps)]. Every call that finds an event takes it
    off the queue, so the calls nested in one another are no more than the
    queue is long: [n] counts them down. *)
Fixpoint _processNextEvent (n : nat) (prevProps : value) (w : world) : world :=
  match _eventChain (fst w) with
  | [] => set_processing false w
  | currentEvent :: q =>
      match n with
      | O => w
      | S n' =>
          let w1 := set_chain q (set_processing true w) in
          let eventProps := with_prev (props currentEvent) prevProps in
          if (0 <? length (listeners (event currentEvent) w))%nat then
            emit (fun nextProps => _processNextEvent n' (resolve_with nextProps))
                 (listeners (event currentEvent) w) eventProps
                 (note_emit (event currentEvent) eventProps w1)
          else _processNextEvent n' prevProps w1
      end
  end.

(** A call of [_processNextEvent] from outside the nest. *)
Definition process (prevProps : value) (w : world) : world :=
  _processNextEvent (length (_eventChain (fst w))) prevProps w.

(** A timer fires: the continuation it holds is called with its argument. *)
Definition fire (arg : value) (w : world) : world :=
  process (resolve_with arg) w.

(** [new UIBridge()] *)
Definition new_UIBridge : UIBridge :=
  {| _emitter := {[SLEEP_EVENT := [BuiltinSleep]]};
     _eventChain := [];
     _isProcessing := false |}.

(** [on(event, callback)]; the function it returns, which takes the
    wrapper out again, is left out. *)
Definition on (ev : string) (callback : UIEventHandler) (w : world) : world :=
  ({| _emitter :=
        <[ev := (listeners ev w ++ [Wrapped ev callback])%list]>
          (_emitter (fst w));
      _eventChain := _eventChain (fst w);
      _isProcessing := _isProcessing (fst w) |}, snd w).

(** [add(event, props = {})] *)
Definition add (ev : string) (p : value) (w : world) : world :=
  let p' := if is_defined p then p else empty_obj in
  let w1 := set_chain (_eventChain (fst w) ++ [{| event := ev; props := p' |}])
                      w in
  if _isProcessing (fst w1) then w1 else process empty_obj w1.

(** [sleep(duration)] *)
Definition sleep (duration : value) (w : world) : world :=
  add SLEEP_EVENT (VObj [("duration", duration)]) w.

(** [clear()] *)
Definition clear (w : world) : world :=
  set_processing false (set_chain [] w).

Definition batch_item (w : world) (item : UIEventBatchItem) : world :=
  if String.eqb (bevent item) "sleep"
     && truthy (get "duration" (bprops item))
  then sleep (get "duration" (bprops item)) w
  else add (bevent item) (js_or (bprops item) empty_obj) w.

(** [batch(events)] *)
Definition batch (events : list UIEventBatchItem) (w : world) : world :=
  fold_left batch_item events (clear w).

(** An event that has a listener. *)
Definition heard (w : world) (item : UIEventChainItem) : bool :=
  (0 <? length (listeners (event item) w))%nat.

(** [w'] comes from [w] by taking events off the front of the queue and
    emitting those of them that have a listener, in their order. *)
Definition consumes (w w' : world) : Prop :=
  _emitter (fst w') = _emitter (fst w)
  /\ exists k new,
       k <= length (_eventChain (fst w))
       /\ _eventChain (fst w') = drop k (_eventChain (fst w))
       /\ emitted (snd w') = (emitted (snd w) ++ new)%list
       /\ map fst new
          = map event (List.filter (heard w) (take k (_eventChain (fst w)))).

(** A continuation that only consumes, and two continuations that do the
    same on queues of at most [K] events. *)
Definition tame (next : value -> world -> world) : Prop :=
  forall v w, consumes w (next v w).

Definition agree_below (K : nat) (next1 next2 : value -> world -> world)
  : Prop :=
  forall v w, length (_eventChain (fst w)) <= K -> next1 v w = next2 v w.

(** A handler run that stops the chain: it calls [stop] and never [next],
    now or later. *)
Definition only_stops (r : handler_run) : Prop :=
  In Stop (acts r) /\ forall a, In a (acts r) -> a = Stop.

End Immediate.

(** ** The specification's wording, for comparison with the code *)

(** Step 4a of the consume algorithm, read by key: the execution context
    of a step is the step's own parameters merged with [prev], which holds
    the carry-forward context. *)
Definition merged_with_prev (parameters carry context : value) : Prop :=
  is_object context = true
  /\ get "prev" context = carry
  /\ forall key, key <> "prev" -> get key context = get key parameters.

Section SpecExecutor.

(** The dispatch substrate in the turn at hand: whether any handler is
    registered for an event name, and what the continuation is first
    invoked with by a dispatch, if it is invoked at all. *)
Variable has_handler : string -> bool.
Variable continuation : string -> value -> option argument.

(** Step 4b for a step that has a handler: the executor is suspended until
    the continuation is invoked; the value passed to it becomes the new
    carry-forward context, the empty mapping if it receives nothing. Of a
    continuation invoked with a promise the specification says nothing; it
    is taken as the host has it: the executor gets what the promise fulfils
    with, and fails or waits for ever as the promise does. *)
Definition spec_wait (received : option argument)
    (rest : list UIEventChainItem) : run_state :=
  match received with
  | None => Pending
  | Some (Plain v) => Awaits (if is_defined v then v else empty_obj) rest
  | Some (Thenable (Fulfils _ v)) => Awaits v rest
  | Some (Thenable (Rejects _ e)) => Rejected e
  | Some (Thenable NeverSettles) => Pending
  end.

(** Steps 4 and 5 of the consume algorithm for one turn of the executor,
    from a carry-forward context and the steps still to run: the steps
    begun in the turn with their execution contexts, and where the executor
    stands then. A step without handler is passed through, its execution
    context becoming the carry-forward context; at a step with a handler the
    executor dispatches and is suspended; after the last step the final
    carry-forward context is the result. *)
Inductive spec_turn
  : value -> list UIEventChainItem -> list step_record -> run_state -> Prop :=
| spec_done carry :
    spec_turn carry [] [] (Resolved carry)
| spec_pass carry step rest context begun state :
    has_handler (event step) = false ->
    merged_with_prev (props step) carry context ->
    spec_turn context rest begun state ->
    spec_turn carry (step :: rest)
      ({| s_event := event step; s_props := context;
          s_dispatched := false |} :: begun)
      state
| spec_dispatch carry step rest context :
    has_handler (event step) = true ->
    merged_with_prev (props step) carry context ->
    spec_turn carry (step :: rest)
      [{| s_event := event step; s_props := context;
          s_dispatched := true |}]
      (spec_wait (continuation (event step) context) rest).

End SpecExecutor.

(** What the first call to the continuation receives. *)
Definition first_arg (run : listener_run) : option argument :=
  match schedule (calls run) with
  | [] => None
  | c :: _ => Some (c_arg c)
  end.

(** Batch translation as worded: every item named "sleep" becomes a sleep
    step, every other item an add step. *)
Definition spec_batch_item (b : Builder.UIChainBuilder)
    (item : UIEventBatchItem) : Builder.UIChainBuilder :=
  if String.eqb (bevent item) "sleep"
  then Builder.sleep (get "duration" (bprops item)) b
  else Builder.add (bevent item) (js_or (bprops item) empty_obj) b.

Definition spec_batch (events : list UIEventBatchItem)
    (b : Builder.UIChainBuilder) : Builder.UIChainBuilder :=
  fold_left spec_batch_item events b.

(** The step a batch item becomes in the code. *)
Definition translate (item : UIEventBatchItem) : UIEventChainItem :=
  if String.eqb (bevent item) "sleep" && truthy (get "duration" (bprops item))
  then {| event := SLEEP_EVENT;
          props := VObj [("duration", get "duration" (bprops item))] |}
  else {| event := bevent item;
          props := js_or (bprops item) empty_obj |}.

Definition batch_as_worded : Prop :=
  forall (events : list UIEventBatchItem) (b : Builder.UIChainBuilder),
    Builder.batch events b = spec_batch events b.

(** Exactly-once continuation as worded: without [stop] the wrapper invokes
    the continuation once, with [stop] never and the step halts. *)
Definition exactly_once_as_worded : Prop :=
  forall (ev : string) (callback : UIEventHandler) (p : value),
    let r := wrappedCallback ev callback p in
    if stopped_ever (callback p)
    then wrapper_calls r = [] /\ awaited r = None
    else length (wrapper_calls r) = 1%nat.

(** Fault isolation as worded: a throw or a rejection is logged under the
    event name, and without [stop] the continuation gets the context the
    handler received. *)
Definition fault_isolation_as_worded : Prop :=
  forall (ev : string) (callback : UIEventHandler) (p e : value),
    (outcome (callback p) = Throws e
     \/ exists d, outcome (callback p) = ReturnsPromise (Rejects d e)) ->
    errors (wrappedCallback ev callback p) = [(ev, e)]
    /\ (stopped_ever (callback p) = false ->
        map c_arg (wrapper_calls (wrappedCallback ev callback p)) = [Plain p]).

(** Deep copy as worded: no object held by the array of a built chain
    existed before the build. *)
Definition deep_copy_as_worded : Prop :=
  forall (now : Z) (b : Refs.UIChainBuilder) (h : Refs.heap) (i : nat)
         (l : Refs.loc),
    Refs.valid b h ->
    Refs.index (fst (Refs.build now b h))
               (Refs.RRef (Refs.b_array (snd (Refs.build now b h)))) i
      = Refs.RRef l ->
    length h <= l.

(** The consumption of an id that is not in the store. *)
Definition absent_consumption (cid : string) : consumption :=
  {| console := [Warn_not_found cid];
     steps := [];
     promise := Resolved VUndef |}.

(** A call that registers or removes a listener under the reserved name. *)
Definition touches_sleep (o : bridge_op) : bool :=
  match o with
  | OpOn ev _ | OpUnsubscribe ev _ => String.eqb ev SLEEP_EVENT
  | _ => false
  end.

(** ** Readings of a handler run *)

(** [isStopped] at the last place where the wrapper tests it: after the
    call, or after the await when the handler returned a promise that
    settles. *)
Definition stopped_at_check (b : behaviour) : bool :=
  match outcome b with
  | ReturnsPromise (Fulfils d _) | ReturnsPromise (Rejects d _) =>
      stopped_until d b
  | _ => stopped_sync b
  end.

Definition never_settles (b : behaviour) : bool :=
  match outcome b with
  | ReturnsPromise NeverSettles => true
  | _ => false
  end.

(** The handler fails with [e] where the wrapper can catch it: the call
    throws, or it returns, without a call to [stop] before, a promise that
    rejects. *)
Definition fails_with (b : behaviour) (e : value) : Prop :=
  outcome b = Throws e
  \/ exists d, outcome b = ReturnsPromise (Rejects d e)
               /\ stopped_sync b = false.

(** The same run with the failure taken out: the call returns nothing, the
    promise fulfils with nothing. *)
Definition without_failure (b : behaviour) : behaviour :=
  {| sync_acts := sync_acts b;
     outcome :=
       match outcome b with
       | Throws _ => Returns VUndef
       | ReturnsPromise (Rejects d _) => ReturnsPromise (Fulfils d VUndef)
       | o => o
       end;
     async_acts := async_acts b |}.

(** The step [sleep(duration)] appends. *)
Definition sleep_item (duration : value) : UIEventChainItem :=
  {| event := SLEEP_EVENT; props := VObj [("duration", duration)] |}.

(** The record of a dispatched step. *)
Definition dispatched (item : UIEventChainItem) (carry : value) : step_record :=
  {| s_event := event item;
     s_props := with_prev (props item) carry;
     s_dispatched := true |}.

(** The delay step as worded: on a bridge, which has the built-in listener
    under the reserved name, a delay step that is reached with the context
    [P] the step before it has left, and has a step after it, hands on [P]
    to that step, the empty object when there is no [P]. *)
Definition sleep_noop_as_worded : Prop :=
  forall (em : EventEmitter) (d P : value) (next : UIEventChainItem)
         (rest : list UIEventChainItem),
    In BuiltinSleep (map reg_fn (listeners SLEEP_EVENT em)) ->
    result (_executeChain em (sleep_item d :: next :: rest) P)
    = Awaits (if is_defined P then P else empty_obj) (next :: rest).

(** The listeners of a turn, as the executor asks for them. *)
Definition heard_by (em : EventEmitter) (ev : string) : bool :=
  (0 <? listenerCount ev em)%nat.

Definition received_from (em : EventEmitter) (ev : string) (context : value)
  : option argument :=
  first_arg (emit ev context em).

(** The first call to the continuation in the dispatch of a step, on the
    listeners [em]. *)
Definition deciding_call (em : EventEmitter) (st : step_record)
  : option call :=
  head (schedule (calls (emit (s_event st) (s_props st) em))).


(** ** Sample handlers, chains and bridges *)

(** [(props, next) => { next({ n: 2 }); }] *)
Definition h_next_n2 : UIEventHandler := fun _ =>
  {| sync_acts := [CallNext (Plain (VObj [("n", VNum 2)]))];
     outcome := Returns VUndef;
     async_acts := [] |}.

(** [() => 7] *)
Definition h_seven : UIEventHandler := fun _ =>
  {| sync_acts := []; outcome := Returns (VNum 7); async_acts := [] |}.

(** [() => { throw "boom"; }] *)
Definition h_throw : UIEventHandler := fun _ =>
  {| sync_acts := []; outcome := Throws (VStr "boom"); async_acts := [] |}.

(** [() => new Promise(() => {})] *)
Definition h_never : UIEventHandler := fun _ =>
  {| sync_acts := [];
     outcome := ReturnsPromise NeverSettles;
     async_acts := [] |}.

(** [async (props, next, stop) => { stop(); throw "boom"; }] *)
Definition h_stop_reject : UIEventHandler := fun _ =>
  {| sync_acts := [CallStop];
     outcome := ReturnsPromise (Rejects 0 (VStr "boom"));
     async_acts := [] |}.

(** [(props, next, stop) => { stop(); throw "boom"; }] *)
Definition h_stop_throw : UIEventHandler := fun _ =>
  {| sync_acts := [CallStop]; outcome := Throws (VStr "boom");
     async_acts := [] |}.

(** [async (props, next, stop) => { await tick; stop(); throw "boom"; }] *)
Definition h_late_stop_reject : UIEventHandler := fun _ =>
  {| sync_acts := [];
     outcome := ReturnsPromise (Rejects 1 (VStr "boom"));
     async_acts := [(1%nat, CallStop)] |}.

(** [(props, next, stop) => { next({ n: 2 }); stop(); }] *)
Definition h_next_then_stop : UIEventHandler := fun _ =>
  {| sync_acts := [CallNext (Plain (VObj [("n", VNum 2)])); CallStop];
     outcome := Returns VUndef;
     async_acts := [] |}.

(** [ui.chain("t").add("x", { n: 1 }).sleep(50).add("y")] *)
Definition sample_builder : Builder.UIChainBuilder :=
  Builder.add "y" VUndef
    (Builder.sleep (VNum 50)
       (Builder.add "x" (VObj [("n", VNum 1)]) (chain "t"))).

(** A bridge with handlers for "x" and "y" and the chain "t" declared. *)
Definition sample_bridge : UIBridge :=
  fst (chain_build 0 sample_builder
         (fst (on "y" h_seven (fst (on "x" h_next_n2 new_UIBridge))))).

(** A bridge with [h] registered for "x" and the chain "f" of the steps
    "x" and "y" declared. *)
Definition fault_bridge (h : UIEventHandler) : UIBridge :=
  fst (chain_build 0
         (Builder.add "y" VUndef (Builder.add "x" VUndef (chain "f")))
         (fst (on "x" h new_UIBridge))).

(** [(props, next) => { next(Promise.reject("boom")); }] *)
Definition h_next_rejecting : UIEventHandler := fun _ =>
  {| sync_acts := [CallNext (Thenable (Rejects 0 (VStr "boom")))];
     outcome := Returns VUndef;
     async_acts := [] |}.

(** [(props, next) => { next(Promise.resolve()); }] *)
Definition h_next_promised_undefined : UIEventHandler := fun _ =>
  {| sync_acts := [CallNext (Thenable (Fulfils 0 VUndef))];
     outcome := Returns VUndef;
     async_acts := [] |}.

(** A bridge with [h] registered for "x" and the chain [cid] of the one
    step "x" declared. *)
Definition one_step_bridge (cid : string) (h : UIEventHandler) : UIBridge :=
  fst (chain_build 0 (Builder.add "x" VUndef (chain cid))
         (fst (on "x" h new_UIBridge))).

Definition rejecting_bridge : UIBridge := one_step_bridge "r" h_next_rejecting.

Definition undefined_bridge : UIBridge :=
  one_step_bridge "u" h_next_promised_undefined.

(** A bridge holding an empty chain "e". *)
Definition empty_chain_bridge : UIBridge :=
  fst (chain_build 0 (chain "e") new_UIBridge).

(** The caller keeps [p = { n: 1 }], declares [add("x", p)] and builds. *)
Definition caller_heap : Refs.heap := [Refs.CObject [("n", Refs.RNum 1)]].

Definition caller_builder : Refs.heap * Refs.UIChainBuilder :=
  let '(h, b) := Refs.create "a" caller_heap in
  (Refs.add "x" (Refs.RRef 0) b h, b).

Definition caller_built : Refs.heap * Refs.built :=
  Refs.build 0 (snd caller_builder) (fst caller_builder).

(** [chain.items[0].props.n] *)
Definition first_step_n (h : Refs.heap) (chain_loc : Refs.loc) : Refs.rvalue :=
  Refs.field h
    (Refs.field h
       (Refs.index h (Refs.field h (Refs.RRef chain_loc) "items") 0)
       "props")
    "n".

(** ** Further readings, for the properties beyond the specification *)

(** Every registration is older than the next one to be made: the wrapper
    made by a call to [on] is a function object of its own. *)
Definition emitter_wf (em : EventEmitter) : Prop :=
  forall ev r, In r (listeners ev em) -> reg_id r < next_reg em.

(** The carry-forward context after steps that are all passed through. *)
Definition passed_through (its : list UIEventChainItem) (c0 : value) : value :=
  fold_left (fun c item => with_prev (props item) c) its c0.

(** The steps of a run that dispatches nothing. *)
Fixpoint passed_records (its : list UIEventChainItem) (c0 : value)
  : list step_record :=
  match its with
  | [] => []
  | item :: rest =>
      {| s_event := event item; s_props := with_prev (props item) c0;
         s_dispatched := false |}
      :: passed_records rest (with_prev (props item) c0)
  end.

(** [k in o] on the properties of an object. *)
Definition has_key (k : string) (fs : list (string * value)) : bool :=
  existsb (fun kv => String.eqb k (fst kv)) fs.

(** A bridge on which a handler was registered under the reserved name. *)
Definition sleep_hooked_bridge : UIBridge :=
  fst (on SLEEP_EVENT h_seven new_UIBridge).

(** * Properties *)

(** ** Objects *)

Lemma assoc_get_fset_eq k v fs : assoc_get k (fset k v fs) = v.
Proof.
  induction fs as [|[k' v'] fs IH]; simpl.
  - now rewrite String.eqb_refl.
  - destruct (String.eqb k k') eqn:E; simpl.
    + now rewrite String.eqb_refl.
    + now rewrite E.
Qed.

Lemma assoc_get_fset_ne k k' v fs :
  k <> k' -> assoc_get k' (fset k v fs) = assoc_get k' fs.
Proof.
  intros Hne. induction fs as [|[k0 v0] fs IH]; simpl.
  - destruct (String.eqb k' k) eqn:E; [|reflexivity].
    apply String.eqb_eq in E. congruence.
  - destruct (String.eqb k k0) eqn:E; simpl.
    + apply String.eqb_eq in E. subst k0.
      destruct (String.eqb k' k) eqn:E'; [|reflexivity].
      apply String.eqb_eq in E'. congruence.
    + destruct (String.eqb k' k0); [reflexivity|exact IH].
Qed.

Lemma get_with_prev p c : get "prev" (with_prev p c) = c.
Proof. unfold with_prev, get. apply assoc_get_fset_eq. Qed.

Lemma get_with_prev_other k p c :
  k <> "prev" -> get k (with_prev p c) = get k (VObj (own_fields p)).
Proof.
  intros Hne. unfold with_prev, get. apply assoc_get_fset_ne. congruence.
Qed.


Lemma get_own_fields k v : get k (VObj (own_fields v)) = get k v.
Proof. destruct v; reflexivity. Qed.

(** ** The store *)

Lemma hasChain_false cid br :
  hasChain cid br = false <-> _declaredChains br !! cid = None.
Proof.
  unfold hasChain. rewrite bool_decide_eq_false.
  rewrite <- eq_None_not_Some. reflexivity.
Qed.


Lemma consume_absent cid br :
  _declaredChains br !! cid = None ->
  consume cid br = (br, absent_consumption cid).
Proof. intros H. unfold consume. rewrite H. reflexivity. Qed.

Lemma consume_present cid br c :
  _declaredChains br !! cid = Some c ->
  _declaredChains (fst (consume cid br)) = delete cid (_declaredChains br)
  /\ _emitter (fst (consume cid br)) = _emitter br
  /\ steps (snd (consume cid br))
     = history (_executeChain (_emitter br) (items c) empty_obj)
  /\ promise (snd (consume cid br))
     = result (_executeChain (_emitter br) (items c) empty_obj).
Proof. intros H. unfold consume. rewrite H. simpl. auto. Qed.

(** C7. Unknown chain. For an id that is not in the store, [consume] warns,
    resolves at once with [undefined], begins no step, and leaves the bridge
    as it was: the store and every chain declared in it. *)
Theorem consume_unknown_chain (cid : string) (br : UIBridge) :
  hasChain cid br = false ->
  consume cid br
  = (br, {| console := [Warn_not_found cid];
            steps := [];
            promise := Resolved VUndef |}).
Proof.
  intros H. apply hasChain_false in H. exact (consume_absent cid br H).
Qed.

Lemma consume_unknown_chain_witness :
  hasChain "nowhere" sample_bridge = false
  /\ consume "nowhere" sample_bridge
     = (sample_bridge, {| console := [Warn_not_found "nowhere"];
                          steps := [];
                          promise := Resolved VUndef |}).
Proof.
  split; [reflexivity|].
  apply (consume_unknown_chain "nowhere" sample_bridge). reflexivity.
Defined.

(** C10. Empty chain. Consuming a declared chain without steps removes it
    from the store and resolves with the empty object, the initial
    carry-forward context; nothing is dispatched. *)
Theorem consume_empty_chain (cid : string) (br : UIBridge)
    (c : DeclaredChain) :
  _declaredChains br !! cid = Some c ->
  items c = [] ->
  consume cid br
  = ({| _emitter := _emitter br;
        _declaredChains := delete cid (_declaredChains br) |},
     {| console := [Log_consuming cid 0];
        steps := [];
        promise := Resolved empty_obj |})
  /\ hasChain cid (fst (consume cid br)) = false.
Proof.
  intros Hc Hi. unfold consume. rewrite Hc, Hi. simpl. split; [reflexivity|].
  apply hasChain_false. simpl. apply lookup_delete_eq.
Qed.

Lemma consume_empty_chain_witness :
  _declaredChains empty_chain_bridge !! "e" = Some (Builder.build 0 (chain "e"))
  /\ promise (snd (consume "e" empty_chain_bridge)) = Resolved empty_obj.
Proof.
  split; [reflexivity|].
  pose proof (consume_empty_chain "e" empty_chain_bridge
                (Builder.build 0 (chain "e")) eq_refl eq_refl) as [H _].
  rewrite H. reflexivity.
Defined.

(** ** Dispatching a step *)

Lemma wrapped_no_raise ev callback p :
  raised (wrappedCallback ev callback p) = None.
Proof.
  unfold wrappedCallback.
  destruct (outcome (callback p)) as [v|e|[d v|d e|]]; simpl;
    try reflexivity; destruct (stopped_sync (callback p)); reflexivity.
Qed.

(** Neither kind of listener raises on props that are an object. *)
Lemma run_listener_no_raise l p :
  nullish p = false -> raised (run_listener l p) = None.
Proof.
  intros Hp. destruct l as [|ev cb]; simpl; [|apply wrapped_no_raise].
  unfold sleepListener. now rewrite Hp.
Qed.

Lemma emit_all_no_raise ls p :
  nullish p = false -> raised (emit_all ls p) = None.
Proof.
  intros Hp. induction ls as [|r ls IH]; simpl; [reflexivity|].
  rewrite (run_listener_no_raise _ _ Hp). simpl. exact IH.
Qed.

(** The executor dispatches an object, so [emit] raises nothing. *)
Lemma emit_no_raise ev p c em : raised (emit ev (with_prev p c) em) = None.
Proof. now apply emit_all_no_raise. Qed.

(** Called on props that are no object, the unwrapped sleep listener
    raises, and a step settled so fails. *)
Lemma sleep_listener_raises_on_null :
  settle_step (sleepListener VNull) = Fails (VStr "TypeError").
Proof. reflexivity. Qed.

Lemma settle_step_no_raise run :
  raised run = None ->
  settle_step run
  = match awaited run with Some e => e | None => Stalls end.
Proof.
  unfold settle_step, awaited. intros ->.
  destruct (schedule (calls run)); reflexivity.
Qed.

Lemma settle_step_emit ev p c em :
  settle_step (emit ev (with_prev p c) em)
  = match awaited (emit ev (with_prev p c) em) with
    | Some e => e
    | None => Stalls
    end.
Proof. apply settle_step_no_raise, emit_no_raise. Qed.

Lemma awaited_first_arg run : awaited run = resolve <$> first_arg run.
Proof.
  unfold awaited, first_arg. destruct (schedule (calls run)); reflexivity.
Qed.

(** Where a dispatch leaves the executor, in the specification's words. *)
Lemma suspended_spec_wait run rest :
  raised run = None ->
  suspended (settle_step run) rest = spec_wait (first_arg run) rest.
Proof.
  intros H. rewrite (settle_step_no_raise run H), awaited_first_arg.
  destruct (first_arg run) as [[v|[d v|d e|]]|]; reflexivity.
Qed.

(** ** A turn of the executor *)

Lemma merged_with_prev_spread p c : merged_with_prev p c (with_prev p c).
Proof.
  split; [reflexivity|]. split; [apply get_with_prev|].
  intros key Hk. rewrite get_with_prev_other by assumption.
  apply get_own_fields.
Qed.

(** The executor against the specification's algorithm, in any turn: on
    the listeners of the turn it does what steps 4 and 5 say. *)
Lemma executeChain_spec em its : forall carry,
  spec_turn (heard_by em) (received_from em) carry its
    (history (_executeChain em its carry))
    (result (_executeChain em its carry)).
Proof.
  induction its as [|item rest IH]; intros carry; simpl.
  - constructor.
  - destruct (0 <? listenerCount (event item) em)%nat eqn:Hc; simpl.
    + rewrite suspended_spec_wait by apply emit_no_raise.
      exact (spec_dispatch (heard_by em) (received_from em) carry item rest
               (with_prev (props item) carry) Hc
               (merged_with_prev_spread (props item) carry)).
    + exact (spec_pass (heard_by em) (received_from em) carry item rest
               (with_prev (props item) carry) _ _ Hc
               (merged_with_prev_spread (props item) carry)
               (IH (with_prev (props item) carry))).
Qed.

Lemma spec_wait_unresolved received rest v :
  spec_wait received rest <> Resolved v.
Proof. destruct received as [[a|[d a|d e|]]|]; discriminate. Qed.

Lemma spec_wait_awaits received rest v rest' :
  spec_wait received rest = Awaits v rest' -> rest' = rest.
Proof.
  destruct received as [[a|[d a|d e|]]|]; simpl; intros H;
    try discriminate; now inversion H.
Qed.

(** What a turn that follows the specification's algorithm begins: the
    first steps of those still to run, each with its own parameters; the
    first with the carry-forward context as [prev]; all but the last
    passed through, each one the [prev] of the next; the last one alone
    may be dispatched, and it is unless the turn ends the chain. *)
Lemma spec_turn_facts has_handler continuation carry its begun state :
  spec_turn has_handler continuation carry its begun state ->
  (forall i st, begun !! i = Some st ->
     exists item, its !! i = Some item
       /\ s_event st = event item
       /\ is_object (s_props st) = true
       /\ (forall key, key <> "prev" ->
             get key (s_props st) = get key (props item))
       /\ s_dispatched st = has_handler (s_event st))
  /\ (forall st, begun !! 0%nat = Some st -> get "prev" (s_props st) = carry)
  /\ (forall i st st', begun !! i = Some st -> begun !! S i = Some st' ->
        s_dispatched st = false /\ get "prev" (s_props st') = s_props st)
  /\ (forall v, state = Resolved v ->
        length begun = length its
        /\ (begun = [] -> v = carry)
        /\ forall st, last begun = Some st ->
             s_dispatched st = false /\ v = s_props st)
  /\ ((forall v, state <> Resolved v) ->
        (exists st, last begun = Some st /\ s_dispatched st = true)
        /\ forall v rest, state = Awaits v rest ->
             rest = drop (length begun) its).
Proof.
  induction 1 as [carry
                 |carry step rest context begun state Hh Hm Ht IH
                 |carry step rest context Hh Hm].
  - split_and!.
    + intros i st H. discriminate.
    + intros st H. discriminate.
    + intros i st st' H. discriminate.
    + intros v [= <-]. split_and!; auto. intros st H. discriminate.
    + intros H. exfalso. now apply (H carry).
  - destruct IH as (I1 & I2 & I3 & I4 & I5).
    destruct Hm as (Ho & Hp & Hk).
    split_and!.
    + intros [|i] st H; simpl in H.
      * injection H as <-. exists step. simpl. rewrite Hh. auto.
      * destruct (I1 i st H) as (item & ? & ?). exists item. auto.
    + intros st [= <-]. exact Hp.
    + intros [|i] st st' H H'; simpl in H, H'.
      * injection H as <-. simpl. split; [reflexivity|]. now apply I2.
      * now apply (I3 i).
    + intros v Hv. destruct (I4 v Hv) as (Hl & Hn & Hlast).
      split_and!.
      * simpl. now rewrite Hl.
      * discriminate.
      * intros st Hst. rewrite last_cons in Hst.
        destruct (last begun) as [y|] eqn:Ey.
        -- injection Hst as <-. now apply Hlast.
        -- injection Hst as <-. simpl. split; [reflexivity|].
           apply last_None in Ey. now apply Hn.
    + intros Hv. destruct (I5 Hv) as ((st & Hst & Hd) & Hrest).
      split.
      * exists st. split; [|exact Hd]. rewrite last_cons. now rewrite Hst.
      * intros v rest' E. simpl. now apply (Hrest v).
  - destruct Hm as (Ho & Hp & Hk).
    split_and!.
    + intros [|i] st H; simpl in H; [|discriminate].
      injection H as <-. exists step. simpl. rewrite Hh. auto.
    + intros st [= <-]. exact Hp.
    + intros [|i] st st' H H'; simpl in H, H'; discriminate.
    + intros v Hv. now apply spec_wait_unresolved in Hv.
    + intros _. split; [eexists; split; reflexivity|].
      intros v rest' E. simpl. rewrite drop_0.
      now apply spec_wait_awaits in E.
Qed.

(** ** A consumption as far as it has come *)





(** ** Turns on a bridge *)

Lemma apply_ops_app os1 os2 s :
  apply_ops (os1 ++ os2) s = apply_ops os2 (apply_ops os1 s).
Proof. unfold apply_ops. apply fold_left_app. Qed.

(** What a turn does to the consumptions of a session: a call of [consume]
    adds one, the turn in which a consumption goes on changes that one, and
    nothing else touches any. *)
Lemma consumption_after o s k :
  snd (apply_op o s) !! k
  = match o with
    | OpConsume cid =>
        (snd s ++ [(cid, snd (consume cid (fst s)))])%list !! k
    | OpResume k' =>
        if decide (k = k')
        then (fun ir => (fst ir, resume (_emitter (fst s)) (snd ir)))
               <$> snd s !! k
        else snd s !! k
    | _ => snd s !! k
    end.
Proof.
  destruct o; simpl; try reflexivity.
  rewrite list_lookup_alter.
  repeat case_decide; subst; congruence.
Qed.

(** A consumption is changed by no turn but its own. *)
Lemma consumption_kept o s k i r :
  snd s !! k = Some (i, r) ->
  o <> OpResume k ->
  snd (apply_op o s) !! k = Some (i, r).
Proof.
  intros H Ho. rewrite consumption_after. destruct o; try exact H.
  - now apply lookup_app_l_Some.
  - case_decide; [congruence|exact H].
Qed.

Lemma consumption_resumed s k i r :
  snd s !! k = Some (i, r) ->
  snd (apply_op (OpResume k) s) !! k
  = Some (i, resume (_emitter (fst s)) r).
Proof.
  intros H. rewrite consumption_after. case_decide; [|congruence].
  now rewrite H.
Qed.

(** A turn of its own changes a consumption that is at an [await]; in any
    other turn, and in any other state, it stays as it is. *)
Lemma consumption_turn o s k i r :
  snd s !! k = Some (i, r) ->
  snd (apply_op o s) !! k
  = Some (i, match o with
             | OpResume k' =>
                 if decide (k' = k) then resume (_emitter (fst s)) r else r
             | _ => r
             end).
Proof.
  intros H. destruct o as [now b|c|c|ev cb|ev rid|k'];
    try (apply consumption_kept; [exact H|discriminate]).
  case_decide as E.
  - subst k'. now apply consumption_resumed.
  - apply consumption_kept; [exact H|congruence].
Qed.

Lemma resume_settled em r :
  (forall v rest, promise r <> Awaits v rest) -> resume em r = r.
Proof.
  intros H. unfold resume. destruct (promise r) as [v|e| |v rest]; auto.
  now destruct (H v rest).
Qed.







(** The sample chain runs once: its three steps are begun one per turn,
    the second call of [consume] and the third find nothing. *)
Example at_most_once_run :
  let later := [OpConsume "t"; OpOn "z" h_seven; OpResume 0; OpResume 0;
                OpResume 0; OpConsume "t"] in
  map (fun ir => (fst ir, map s_event (steps (snd ir)), promise (snd ir)))
      (snd (consume_then "t" later sample_bridge))
  = [("t", ["x"; SLEEP_EVENT; "y"],
      Resolved (VObj [("value", VNum 7);
                      ("prev", VObj [("prev", VObj [("n", VNum 2)])])]));
     ("t", [], Resolved VUndef);
     ("t", [], Resolved VUndef)].
Proof. reflexivity. Qed.



(** Three runs the specification lists among its testable properties. *)

(** Data threading: the handler of "x" calls [next({ n: 2 })], and "y" is
    dispatched with [prev.n = 2] two turns later, the delay step between
    them; the promise resolves with what the wrapper of "y" passes on. *)
Example data_threading_run :
  let s := consume_then "t" [OpResume 0; OpResume 0; OpResume 0]
             sample_bridge in
  (fun ir => ((fun st => (s_event st, get "n" (get "prev" (s_props st))))
                <$> steps (snd ir) !! 2%nat,
              promise (snd ir))) <$> snd s !! 0%nat
  = Some (Some ("y", VNum 2),
          Resolved (VObj [("value", VNum 7);
                          ("prev", VObj [("prev", VObj [("n", VNum 2)])])])).
Proof. reflexivity. Qed.

(** No-listener passthrough: a step without handler hands on its own
    execution context. *)
Example passthrough_run :
  let b := Builder.add "y" empty_obj
             (Builder.add "unregistered.event" (VObj [("a", VNum 1)])
                (chain "p")) in
  let br := fst (chain_build 0 b (fst (on "y" h_seven new_UIBridge))) in
  s_props <$> steps (snd (consume "p" br)) !! 1%nat
  = Some (VObj [("prev", VObj [("a", VNum 1); ("prev", VObj [])])]).
Proof. reflexivity. Qed.

(** Fault isolation: the handler of "x" throws, and "y" is reached with the
    execution context of "x" as [prev]. *)
Example fault_isolation_run :
  let s := consume_then "f" [OpResume 0] (fault_bridge h_throw) in
  (fun ir => (console (snd ir), s_props <$> steps (snd ir) !! 1%nat,
              promise (snd ir))) <$> snd s !! 0%nat
  = Some ([Log_consuming "f" 2; Error_in_handler "x" (VStr "boom")],
          Some (VObj [("prev", VObj [("prev", VObj [])])]),
          Resolved (VObj [("prev", VObj [("prev", VObj [])])])).
Proof. reflexivity. Qed.

(** Listeners in flight: a handler registered for "y" after the call of
    [consume], while the first step is awaited, is the one the step "y"
    is dispatched to; one removed in the meantime is not called. *)
Example live_listeners_run :
  let b := Builder.add "y" VUndef (Builder.add "x" VUndef (chain "c")) in
  let br := fst (chain_build 0 b (fst (on "x" h_next_n2 new_UIBridge))) in
  let s := consume_then "c" [OpOn "y" h_seven; OpResume 0; OpResume 0] br in
  let s' := consume_then "c" [OpResume 0] br in
  (fun ir => (map s_dispatched (steps (snd ir)), promise (snd ir)))
    <$> snd s !! 0%nat
  = Some ([true; true],
          Resolved (VObj [("value", VNum 7);
                          ("prev", VObj [("prev", VObj [("n", VNum 2)])])]))
  /\ (fun ir => (map s_dispatched (steps (snd ir)), promise (snd ir)))
       <$> snd s' !! 0%nat
     = Some ([true; false],
             Resolved (VObj [("prev", VObj [("n", VNum 2)])])).
Proof. split; reflexivity. Qed.

(** ** The wrapper *)

Lemma filter_next_args t a : List.filter by_wrapper (next_args t a) = [].
Proof. destruct a; reflexivity. Qed.

Lemma handler_calls_by_handler b :
  List.filter by_wrapper (handler_calls b) = [].
Proof.
  unfold handler_calls. rewrite List.filter_app.
  assert (H : forall (A : Type) (f : A -> list call) (l : list A),
             (forall a, List.filter by_wrapper (f a) = []) ->
             List.filter by_wrapper (flat_map f l) = []).
  { intros A f l Hf. induction l as [|a l IH]; simpl; [reflexivity|].
    now rewrite List.filter_app, Hf, IH. }
  rewrite !H; [reflexivity| |]; intros a; apply filter_next_args.
Qed.

(** The wrapper's own calls, case by case. *)
Lemma wrapper_calls_cases ev callback p :
  wrapper_calls (wrappedCallback ev callback p)
  = match outcome (callback p) with
    | Returns v =>
        if stopped_sync (callback p) then []
        else [wrapper_call 0 (forwarded p v)]
    | Throws _ =>
        if stopped_sync (callback p) then [] else [wrapper_call 0 p]
    | ReturnsPromise s =>
        if stopped_sync (callback p) then []
        else match s with
             | Fulfils d v =>
                 if stopped_until d (callback p) then []
                 else [wrapper_call (S d) (forwarded p v)]
             | Rejects d _ =>
                 if stopped_until d (callback p) then []
                 else [wrapper_call (S d) p]
             | NeverSettles => []
             end
    end.
Proof.
  unfold wrapper_calls, wrappedCallback.
  pose proof (handler_calls_by_handler (callback p)) as Hown.
  destruct (outcome (callback p)) as [v|e|[d v|d e|]];
    destruct (stopped_sync (callback p)); simpl;
    try destruct (stopped_until d (callback p)); simpl;
    rewrite ?List.filter_app, ?Hown; reflexivity.
Qed.

(** Every call to the continuation is the handler's or the wrapper's. *)
Lemma calls_split ev callback p :
  calls (wrappedCallback ev callback p)
  = (handler_calls (callback p)
     ++ wrapper_calls (wrappedCallback ev callback p))%list.
Proof.
  rewrite wrapper_calls_cases. unfold wrappedCallback.
  destruct (outcome (callback p)) as [v|e|[d v|d e|]];
    destruct (stopped_sync (callback p)); simpl;
    try destruct (stopped_until d (callback p)); simpl;
    rewrite ?app_nil_r; reflexivity.
Qed.

Lemma stopped_ever_false b :
  stopped_ever b = false ->
  stopped_sync b = false /\ forall d, stopped_until d b = false.
Proof.
  unfold stopped_ever, stopped_until. intros H.
  apply orb_false_elim in H as [Hs Ha]. split; [assumption|].
  intros d. rewrite Hs. simpl.
  induction (async_acts b) as [|[t a] l IH]; simpl in *; [reflexivity|].
  apply orb_false_elim in Ha as [Ha1 Ha2].
  rewrite Ha1, andb_false_r. simpl. auto.
Qed.

Lemma insert_call_not_nil c l : insert_call c l <> [].
Proof.
  destruct l as [|c' l]; simpl; [discriminate|].
  destruct (c_time c <=? c_time c')%nat; discriminate.
Qed.

Lemma schedule_nil l : schedule l = [] <-> l = [].
Proof.
  split; [|intros ->; reflexivity].
  destruct l as [|c l]; [reflexivity|]. simpl. intros H.
  now apply insert_call_not_nil in H.
Qed.

Lemma insert_call_In c a l : In c (insert_call a l) -> c = a \/ In c l.
Proof.
  induction l as [|b l IH]; simpl.
  - intros [<-|[]]. now left.
  - destruct (c_time a <=? c_time b)%nat; simpl.
    + intros [<-|H]; auto.
    + intros [<-|H]; [right; now left|].
      destruct (IH H); auto.
Qed.

(** The calls in their order are the calls made. *)
Lemma schedule_In c l : In c (schedule l) -> In c l.
Proof.
  induction l as [|a l IH]; simpl; [auto|].
  intros H. apply insert_call_In in H as [->|H]; auto.
Qed.

(** All that is passed to the continuation is a plain value, unless the
    handler itself passes something else. *)
Lemma calls_plain_but_handler ev callback p c :
  In c (calls (wrappedCallback ev callback p)) ->
  (forall c', In c' (handler_calls (callback p)) ->
              exists v, c_arg c' = Plain v) ->
  exists v, c_arg c = Plain v.
Proof.
  intros Hin Hplain. rewrite calls_split in Hin.
  apply in_app_or in Hin as [Hin|Hin]; [now apply Hplain|].
  rewrite wrapper_calls_cases in Hin.
  destruct (outcome (callback p)) as [v|e|[d v|d e|]];
    destruct (stopped_sync (callback p));
    try destruct (stopped_until d (callback p));
    simpl in Hin; try contradiction;
    destruct Hin as [<-|[]]; simpl; eauto.
Qed.

Lemma awaited_none run : awaited run = None <-> calls run = [].
Proof.
  unfold awaited. rewrite <- schedule_nil.
  destruct (schedule (calls run)); split; congruence.
Qed.

(** With one listener, [emit] is that listener's run. *)
Lemma emit_single ev p em l :
  map reg_fn (listeners ev em) = [l] ->
  raised (run_listener l p) = None ->
  emit ev p em = run_listener l p
  /\ (0 <? listenerCount ev em)%nat = true.
Proof.
  intros H Hr. unfold emit, listenerCount.
  destruct (listeners ev em) as [|r [|r' ls]]; try discriminate.
  simpl in *. inversion H; subst. split; [|reflexivity].
  destruct (run_listener (reg_fn r) p) as [cs es rs]. simpl in *. subst rs.
  now rewrite !app_nil_r.
Qed.

(** C4. Handler result forwarding. For a handler that does not call [stop],
    whose result is returned directly or is the value its returned promise
    fulfils with: the wrapper gives the continuation the result itself when
    it is a non-null object, [{ value: result, prev: props }] when it is any
    other defined value, and the props the handler received when it is
    undefined. When the handler made no call of its own, that argument is
    what the step resolves with. *)
Theorem wrapper_forwards_result (ev : string) (callback : UIEventHandler)
    (p res : value) :
  stopped_ever (callback p) = false ->
  (outcome (callback p) = Returns res
   \/ exists d, outcome (callback p) = ReturnsPromise (Fulfils d res)) ->
  let sent := match res with
              | VObj _ => res
              | VUndef => p
              | _ => VObj [("value", res); ("prev", p)]
              end in
  map c_arg (wrapper_calls (wrappedCallback ev callback p)) = [Plain sent]
  /\ (handler_calls (callback p) = [] ->
      awaited (wrappedCallback ev callback p)
      = Some (Goes (resolve_with sent))).
Proof.
  intros Hstop Hout sent.
  destruct (stopped_ever_false _ Hstop) as [Hs Hu].
  assert (Hsent : forwarded p res = sent) by (destruct res; reflexivity).
  assert (Hw : exists t, wrapper_calls (wrappedCallback ev callback p)
                         = [wrapper_call t sent]).
  { rewrite wrapper_calls_cases.
    destruct Hout as [Ho|[d Ho]]; rewrite Ho, Hs, ?Hu, Hsent; eauto. }
  destruct Hw as [t Hw]. split.
  - now rewrite Hw.
  - intros Hown. unfold awaited.
    now rewrite calls_split, Hown, Hw.
Qed.

Lemma wrapper_forwards_result_witness :
  stopped_ever (h_seven VNull) = false
  /\ map c_arg (wrapper_calls (wrappedCallback "y" h_seven VNull))
     = [Plain (VObj [("value", VNum 7); ("prev", VNull)])].
Proof.
  split; [reflexivity|].
  apply (wrapper_forwards_result "y" h_seven VNull (VNum 7));
    [reflexivity | left; reflexivity].
Defined.

(** C3. Fault isolation, at the input where the code falls short of it. A
    handler that calls [stop] and then returns a promise that rejects, as an
    async handler does that calls [stop] and throws: the wrapper returns at
    its first test of [isStopped], before the await, so the rejection is
    neither caught nor logged, and the console of a consumption shows no
    error. The neighbouring paths do log the error: a throw after [stop],
    and a rejection after a [stop] called during the await. *)
Lemma stop_then_reject_escapes_wrapper :
  outcome (h_stop_reject VNull) = ReturnsPromise (Rejects 0 (VStr "boom"))
  /\ errors (wrappedCallback "x" h_stop_reject VNull) = []
  /\ calls (wrappedCallback "x" h_stop_reject VNull) = []
  /\ errors (wrappedCallback "x" h_stop_throw VNull) = [("x", VStr "boom")]
  /\ errors (wrappedCallback "x" h_late_stop_reject VNull)
     = [("x", VStr "boom")]
  /\ console (snd (consume "f" (fault_bridge h_stop_reject)))
     = [Log_consuming "f" 2]
  /\ console (snd (consume "f" (fault_bridge h_stop_throw)))
     = [Log_consuming "f" 2; Error_in_handler "x" (VStr "boom")].
Proof.
  repeat split; reflexivity.
Qed.

Lemma fault_isolation_as_worded_fails : ~ fault_isolation_as_worded.
Proof.
  intros H.
  destruct (H "x" h_stop_reject VNull (VStr "boom")) as [Herr _].
  - right. exists 0%nat. reflexivity.
  - discriminate Herr.
Qed.

(** Fault isolation where the wrapper reaches its catch. When the handler's
    call throws, or it returns, without a call to [stop] before, a promise
    that rejects, the wrapper logs the error under the event name; unless
    [stop] was called by then it gives the continuation the props the
    handler received, and its calls are those it makes for the same handler
    without the failure; nothing is raised to the emitter. A step whose only
    listener fails so, and neither calls the continuation itself nor stops,
    passes its execution context on to the next step. The failure does not
    reject the promise the executor awaits, whatever values the handler has
    passed to the continuation itself. *)
Theorem handler_fault_is_isolated (ev : string) (callback : UIEventHandler)
    (p e : value) :
  fails_with (callback p) e ->
  let r := wrappedCallback ev callback p in
  errors r = [(ev, e)]
  /\ map c_arg (wrapper_calls r)
     = (if stopped_at_check (callback p) then [] else [Plain p])
  /\ calls r
     = calls (wrappedCallback ev (fun _ => without_failure (callback p)) p)
  /\ raised r = None
  /\ (forall em item rest carry,
        p = with_prev (props item) carry ->
        map reg_fn (listeners (event item) em) = [Wrapped ev callback] ->
        handler_calls (callback p) = [] ->
        stopped_ever (callback p) = false ->
        _executeChain em (item :: rest) carry
        = {| history := [{| s_event := event item; s_props := p;
                            s_dispatched := true |}];
             logged := [(ev, e)];
             result := Awaits p rest |})
  /\ (forall e',
        (forall c, In c (handler_calls (callback p)) ->
                   exists v, c_arg c = Plain v) ->
        settle_step r <> Fails e').
Proof.
  intros Hf r.
  assert (Herr : errors r = [(ev, e)]).
  { subst r. unfold wrappedCallback.
    destruct Hf as [Ho|(d & Ho & Hs)]; rewrite Ho, ?Hs; reflexivity. }
  assert (Hw : wrapper_calls r
               = if stopped_at_check (callback p) then []
                 else [wrapper_call
                         (match outcome (callback p) with
                          | ReturnsPromise (Rejects d _) => S d
                          | _ => 0%nat
                          end) p]).
  { subst r. rewrite wrapper_calls_cases. unfold stopped_at_check.
    destruct Hf as [Ho|(d & Ho & Hs)]; rewrite Ho, ?Hs; reflexivity. }
  split; [exact Herr|]. split.
  { rewrite Hw. destruct (stopped_at_check (callback p)); reflexivity. }
  split.
  { subst r. unfold wrappedCallback, without_failure, stopped_sync,
      stopped_until, handler_calls, forwarded. simpl.
    destruct Hf as [Ho|(d & Ho & Hs)]; rewrite Ho; simpl; [reflexivity|].
    unfold stopped_sync in Hs. rewrite Hs. reflexivity. }
  split; [apply wrapped_no_raise|]. split.
  - intros em item rest carry Hp Hl Hown Hstop. simpl.
    destruct (emit_single (event item) p em _ Hl
                (wrapped_no_raise ev callback p)) as [Hemit Hcount].
    rewrite <- Hp, Hcount, Hemit. simpl. fold r.
    rewrite (settle_step_no_raise r (wrapped_no_raise ev callback p)).
    pose proof (calls_split ev callback p) as Hsplit. fold r in Hsplit.
    unfold awaited. rewrite Hsplit, Hown, Hw, Herr.
    destruct (stopped_ever_false _ Hstop) as [Hs Hu].
    assert (Hc : stopped_at_check (callback p) = false).
    { unfold stopped_at_check.
      destruct (outcome (callback p)) as [v|e0|[d v|d e0|]]; auto. }
    rewrite Hc. simpl. unfold resolve_with. rewrite Hp. reflexivity.
  - intros e' Hplain.
    rewrite (settle_step_no_raise r (wrapped_no_raise ev callback p)).
    unfold awaited.
    destruct (schedule (calls r)) as [|c l] eqn:Es; [discriminate|].
    assert (Hin : In c (calls r)).
    { apply schedule_In. rewrite Es. now left. }
    destruct (calls_plain_but_handler ev callback p c Hin Hplain) as [v ->].
    discriminate.
Qed.

Lemma handler_fault_is_isolated_witness :
  fails_with (h_throw VNull) (VStr "boom")
  /\ errors (wrappedCallback "x" h_throw VNull) = [("x", VStr "boom")]
  /\ map c_arg (wrapper_calls (wrappedCallback "x" h_throw VNull))
     = [Plain VNull].
Proof.
  split; [left; reflexivity|].
  destruct (handler_fault_is_isolated "x" h_throw VNull (VStr "boom"))
    as (H1 & H2 & _); [left; reflexivity|].
  split; [exact H1 | exact H2].
Defined.

(** A handler that returns a promise which never settles, and does not call
    [stop]: the wrapper stays at its await and never invokes the
    continuation. *)
Lemma exactly_once_as_worded_fails : ~ exactly_once_as_worded.
Proof.
  intros H. specialize (H "x" h_never VNull). simpl in H. discriminate H.
Qed.

(** A handler that calls the continuation itself and returns: the
    continuation is invoked twice, by the handler and then by the wrapper,
    and the step resolves with the handler's value. *)
Lemma handler_and_wrapper_both_call :
  map c_arg (calls (wrappedCallback "x" h_next_n2 VNull))
  = [Plain (VObj [("n", VNum 2)]); Plain VNull]
  /\ awaited (wrappedCallback "x" h_next_n2 VNull)
     = Some (Goes (VObj [("n", VNum 2)])).
Proof. split; reflexivity. Qed.

(** A handler that calls the continuation and then [stop]: the wrapper
    makes no call, and the step resolves all the same. *)
Lemma stop_after_next_does_not_halt :
  stopped_ever (h_next_then_stop VNull) = true
  /\ wrapper_calls (wrappedCallback "x" h_next_then_stop VNull) = []
  /\ awaited (wrappedCallback "x" h_next_then_stop VNull)
     = Some (Goes (VObj [("n", VNum 2)])).
Proof. repeat split; reflexivity. Qed.

(** C5. Continuation calls of the wrapper. In every invocation the calls to
    the continuation are the handler's own followed by the wrapper's. The
    wrapper makes one call when the handler's call has returned or thrown,
    or its promise has settled, and [stop] was not called by then; it makes
    none when [stop] was called by then, or when the promise never settles.
    The promise of a step is left as it is exactly when no call is made at
    all. A step whose only listener is the wrapper then waits for ever;
    otherwise the first call decides it, and the loop goes on with the
    argument of that call, or, when the handler passed a promise, ends or
    goes on as that promise does. *)
Theorem wrapper_continuation_calls (ev : string) (callback : UIEventHandler)
    (p : value) :
  let b := callback p in
  let r := wrappedCallback ev callback p in
  calls r = (handler_calls b ++ wrapper_calls r)%list
  /\ length (wrapper_calls r)
     = (if never_settles b || stopped_at_check b then 0 else 1)%nat
  /\ (awaited r = None <-> calls r = [])
  /\ (forall em item rest carry,
        p = with_prev (props item) carry ->
        map reg_fn (listeners (event item) em) = [Wrapped ev callback] ->
        _executeChain em (item :: rest) carry
        = {| history := [{| s_event := event item; s_props := p;
                            s_dispatched := true |}];
             logged := errors r;
             result := match schedule (calls r) with
                       | [] => Pending
                       | c :: _ => suspended (resolve (c_arg c)) rest
                       end |}).
Proof.
  intros b r. split; [apply calls_split|]. split.
  { subst r b. rewrite wrapper_calls_cases.
    unfold never_settles, stopped_at_check.
    destruct (outcome (callback p)) as [v|e|[d v|d e|]]; simpl;
      destruct (stopped_sync (callback p)) eqn:Hs; simpl;
      try reflexivity;
      unfold stopped_until; rewrite Hs; simpl; try reflexivity;
      destruct (existsb _ (async_acts (callback p))); reflexivity. }
  split; [apply awaited_none|].
  intros em item rest carry Hp Hl. simpl.
  destruct (emit_single (event item) p em _ Hl
              (wrapped_no_raise ev callback p)) as [Hemit Hcount].
  rewrite <- Hp, Hcount, Hemit. simpl. fold r.
  rewrite (settle_step_no_raise r (wrapped_no_raise ev callback p)).
  unfold awaited. destruct (schedule (calls r)); reflexivity.
Qed.

(** ** The delay step *)

Lemma builtin_sleep_registered :
  map reg_fn (listeners SLEEP_EVENT (_emitter new_UIBridge)) = [BuiltinSleep].
Proof. reflexivity. Qed.

(** Registering a handler under another name leaves the listeners of the
    reserved name as they are. *)
Lemma on_other_keeps_sleep ev callback br :
  ev <> SLEEP_EVENT ->
  listeners SLEEP_EVENT (_emitter (fst (on ev callback br)))
  = listeners SLEEP_EVENT (_emitter br).
Proof.
  intros Hne. unfold on, emitter_on, listeners. simpl.
  now rewrite lookup_insert_ne.
Qed.

(** Turns that register and remove nothing under the reserved name leave
    its listeners as they are: on a new bridge, the built-in one alone. *)
Lemma apply_ops_keep_sleep os : forall s,
  forallb (fun o => negb (touches_sleep o)) os = true ->
  listeners SLEEP_EVENT (_emitter (fst (apply_ops os s)))
  = listeners SLEEP_EVENT (_emitter (fst s)).
Proof.
  induction os as [|o os IH]; intros s Hall; simpl in *; [reflexivity|].
  apply andb_prop in Hall as [Ho Hos]. apply negb_true_iff in Ho.
  rewrite (IH (apply_op o s) Hos).
  destruct o as [now b|c|c|ev cb|ev rid|k]; simpl in *; try reflexivity.
  - unfold consume. destruct (_declaredChains (fst s) !! c); reflexivity.
  - apply on_other_keeps_sleep. now apply String.eqb_neq.
  - apply String.eqb_neq in Ho. unfold emitter_off, listeners. simpl.
    destruct (List.filter _ _);
      [now rewrite lookup_delete_ne | now rewrite lookup_insert_ne].
Qed.

Lemma resolve_with_js_or v : resolve_with (js_or v empty_obj) = js_or v empty_obj.
Proof. unfold js_or. destruct v as [| |[|]|z|s|fs]; simpl; try reflexivity.
  - destruct (z =? 0)%Z; reflexivity.
  - destruct (String.eqb s ""); reflexivity.
Qed.

Lemma js_or_truthy v w : truthy v = true -> js_or v w = v.
Proof. unfold js_or. now intros ->. Qed.

Lemma js_or_falsy v w : truthy v = false -> js_or v w = w.
Proof. unfold js_or. now intros ->. Qed.

(** One delay step, dispatched to the built-in listener alone. *)
Lemma executeChain_sleep_step em d rest carry :
  map reg_fn (listeners SLEEP_EVENT em) = [BuiltinSleep] ->
  _executeChain em (sleep_item d :: rest) carry
  = {| history := [dispatched (sleep_item d) carry];
       logged := [];
       result := Awaits (js_or carry empty_obj) rest |}.
Proof.
  intros Hl. simpl.
  destruct (emit_single SLEEP_EVENT
              (with_prev (VObj [("duration", d)]) carry) em _ Hl eq_refl)
    as [Hemit Hcount].
  rewrite Hcount, Hemit. simpl. now rewrite resolve_with_js_or.
Qed.

(** A handler registered by [on] under the reserved name is called with the
    built-in listener and calls the continuation before the timer does: the
    delay step hands on what that handler's wrapper passes, not the context
    it was reached with. *)
Lemma sleep_noop_as_worded_fails : ~ sleep_noop_as_worded.
Proof.
  intros H.
  specialize (H (_emitter sleep_hooked_bridge) (VNum 50)
                (VObj [("n", VNum 2)])
                {| event := "y"; props := empty_obj |} []).
  assert (Hin : In BuiltinSleep
                  (map reg_fn (listeners SLEEP_EVENT
                                 (_emitter sleep_hooked_bridge))))
    by (now left).
  specialize (H Hin). vm_compute in H. discriminate H.
Qed.

(** Without any such handler: a context that is defined but falsy, as a
    handler leaves behind that calls [next(0)], [next(null)], [next("")] or
    [next(false)], is replaced by the empty object. *)
Lemma sleep_replaces_falsy_context (P : value) (next : UIEventChainItem) :
  In P [VNum 0; VNull; VStr ""; VBool false] ->
  result (_executeChain (_emitter new_UIBridge)
            [sleep_item (VNum 50); next] P)
  = Awaits empty_obj [next].
Proof.
  intros [<-|[<-|[<-|[<-|[]]]]]; reflexivity.
Qed.

(** The chain "x", delay, "y" on a bridge where a handler is registered
    under the reserved name besides the built-in listener: "x" leaves
    [{ n: 2 }], and "y" is dispatched with the value the handler's wrapper
    made as [prev], not with [{ n: 2 }]. On the bridge without that
    handler, "y" gets [{ n: 2 }]. *)
Example hooked_sleep_run :
  let prev_of_y (br : UIBridge) :=
    (fun ir => (fun st => (s_event st, get "prev" (s_props st)))
                 <$> steps (snd ir) !! 2%nat)
      <$> snd (consume_then "t" [OpResume 0; OpResume 0] br) !! 0%nat in
  prev_of_y (fst (on SLEEP_EVENT h_seven sample_bridge))
  = Some (Some ("y", VObj [("value", VNum 7);
                           ("prev", VObj [("duration", VNum 50);
                                          ("prev", VObj [("n", VNum 2)])])]))
  /\ prev_of_y sample_bridge = Some (Some ("y", VObj [("n", VNum 2)])).
Proof. split; reflexivity. Qed.

(** C6. The delay step and the data. [sleep(d)] appends a step under the
    reserved name, for which the constructor registers the built-in
    listener. Where that listener is the only one under the name when the
    step is reached, with carry-forward context [P], the step is dispatched
    with its duration and [prev = P] and logs nothing, and the built-in
    listener is the only one to call the continuation, with [P || {}]: the
    loop goes on from there in a later turn, so that the step after the
    delay step gets [P || {}] as [prev], whatever listeners there are then.
    [P || {}] is [P] itself whenever [P] is an object or otherwise truthy,
    and the empty object for every other [P]. *)
Theorem sleep_is_data_noop (em : EventEmitter) (d P : value)
    (rest : list UIEventChainItem) :
  map reg_fn (listeners SLEEP_EVENT em) = [BuiltinSleep] ->
  (forall b, Builder.b_items (Builder.sleep d b)
             = (Builder.b_items b ++ [sleep_item d])%list)
  /\ (get "prev" (s_props (dispatched (sleep_item d) P)) = P
      /\ get "duration" (s_props (dispatched (sleep_item d) P)) = d)
  /\ map c_arg (calls (sleepListener (s_props (dispatched (sleep_item d) P))))
     = [Plain (js_or P empty_obj)]
  /\ _executeChain em (sleep_item d :: rest) P
     = {| history := [dispatched (sleep_item d) P];
          logged := [];
          result := Awaits (js_or P empty_obj) rest |}
  /\ (forall (s : session) k cid r,
        _emitter (fst s) = em ->
        snd s !! k = Some (cid, r) ->
        promise r = Awaits P (sleep_item d :: rest) ->
        snd (apply_op (OpResume k) s) !! k
        = Some (cid, {| console := console r;
                        steps := (steps r ++ [dispatched (sleep_item d) P])%list;
                        promise := Awaits (js_or P empty_obj) rest |}))
  /\ (forall em' next rest', rest = next :: rest' ->
        exists after,
          history (_executeChain em' rest (js_or P empty_obj)) !! 0%nat
          = Some after
          /\ s_event after = event next
          /\ get "prev" (s_props after) = js_or P empty_obj)
  /\ (truthy P = true -> js_or P empty_obj = P)
  /\ (truthy P = false -> js_or P empty_obj = empty_obj).
Proof.
  intros Hl.
  pose proof (executeChain_sleep_step em d rest P Hl) as Hstep.
  split_and!.
  - reflexivity.
  - apply get_with_prev.
  - reflexivity.
  - reflexivity.
  - exact Hstep.
  - intros s k cid r Hem Hk Hp.
    rewrite (consumption_resumed s k cid r Hk). unfold resume.
    rewrite Hp, Hem, Hstep. simpl. now rewrite app_nil_r.
  - intros em' next rest' ->. simpl.
    destruct (0 <? listenerCount (event next) em')%nat; simpl;
      eexists; (split; [reflexivity|]); simpl;
      (split; [reflexivity|apply get_with_prev]).
  - apply js_or_truthy.
  - apply js_or_falsy.
Qed.

Lemma sleep_is_data_noop_witness :
  let em := _emitter sample_bridge in
  map reg_fn (listeners SLEEP_EVENT em) = [BuiltinSleep]
  /\ result (_executeChain em
               [sleep_item (VNum 50); {| event := "y"; props := empty_obj |}]
               (VObj [("n", VNum 2)]))
     = Awaits (VObj [("n", VNum 2)]) [{| event := "y"; props := empty_obj |}].
Proof.
  split; [reflexivity|].
  destruct (sleep_is_data_noop (_emitter sample_bridge) (VNum 50)
              (VObj [("n", VNum 2)])
              [{| event := "y"; props := empty_obj |}] eq_refl)
    as (_ & _ & _ & H & _).
  rewrite H. reflexivity.
Defined.

(** ** The builder *)

Lemma js_or_defined v : is_defined (js_or v empty_obj) = true.
Proof.
  unfold js_or. destruct v as [| |[|]|z|s|fs]; simpl; try reflexivity.
  - destruct (z =? 0)%Z; reflexivity.
  - destruct (String.eqb s ""); reflexivity.
Qed.

Lemma batch_item_translate b item :
  Builder.batch_item b item
  = {| Builder.chainId := Builder.chainId b;
       Builder.b_items := (Builder.b_items b ++ [translate item])%list;
       Builder.b_metadata := Builder.b_metadata b |}.
Proof.
  unfold Builder.batch_item, translate.
  destruct (String.eqb (bevent item) "sleep"
            && truthy (get "duration" (bprops item))).
  - reflexivity.
  - unfold Builder.add. now rewrite js_or_defined.
Qed.

Lemma batch_appends events : forall b,
  Builder.batch events b
  = {| Builder.chainId := Builder.chainId b;
       Builder.b_items := (Builder.b_items b ++ map translate events)%list;
       Builder.b_metadata := Builder.b_metadata b |}.
Proof.
  unfold Builder.batch.
  induction events as [|item events IH]; intros b; simpl.
  - rewrite app_nil_r. now destruct b.
  - rewrite IH, batch_item_translate. simpl. now rewrite <- app_assoc.
Qed.

(** An item named "sleep" that carries no duration is appended under the
    name "sleep", not under the reserved name of a delay step. *)
Lemma batch_as_worded_fails : ~ batch_as_worded.
Proof.
  intros H.
  specialize (H [{| bevent := "sleep"; bprops := empty_obj |}]
                (Builder.create "c")).
  discriminate H.
Qed.

(** C9. Batch translation. [batch] keeps the builder's id, metadata and
    steps and appends one step per item, in order: [sleep(duration)] for an
    item named "sleep" whose props carry a truthy duration, and
    [add(event, props || {})] for every other item, an item named "sleep"
    without such a duration included. The batch of a 10 ms sleep item and
    [{ event: "z", props: { a: 1 } }] builds what [sleep(10)] followed by
    [add("z", { a: 1 })] builds. *)
Theorem batch_translation (events : list UIEventBatchItem)
    (b : Builder.UIChainBuilder) :
  Builder.chainId (Builder.batch events b) = Builder.chainId b
  /\ Builder.b_metadata (Builder.batch events b) = Builder.b_metadata b
  /\ Builder.b_items (Builder.batch events b)
     = (Builder.b_items b ++ map translate events)%list
  /\ (forall item,
        bevent item = "sleep" ->
        truthy (get "duration" (bprops item)) = true ->
        Builder.batch_item b item
        = Builder.sleep (get "duration" (bprops item)) b)
  /\ (forall item,
        bevent item <> "sleep"
        \/ truthy (get "duration" (bprops item)) = false ->
        Builder.batch_item b item
        = Builder.add (bevent item) (js_or (bprops item) empty_obj) b)
  /\ Builder.batch
       [{| bevent := "sleep"; bprops := VObj [("duration", VNum 10)] |};
        {| bevent := "z"; bprops := VObj [("a", VNum 1)] |}] b
     = Builder.add "z" (VObj [("a", VNum 1)]) (Builder.sleep (VNum 10) b).
Proof.
  rewrite batch_appends. simpl.
  split; [reflexivity|]. split; [reflexivity|]. split; [reflexivity|].
  split; [|split].
  - intros item He Ht. unfold Builder.batch_item. now rewrite He, Ht.
  - intros item H. unfold Builder.batch_item.
    destruct H as [H|H].
    + apply String.eqb_neq in H. now rewrite H.
    + now rewrite H, andb_false_r.
  - reflexivity.
Qed.

(** ** The builder's references *)

Lemma push_length l x h : length (Refs.push l x h) = length h.
Proof.
  unfold Refs.push. destruct (h !! l) as [[fs|es]|]; try reflexivity.
  apply length_insert.
Qed.

Lemma push_other l x h l' : l' <> l -> Refs.push l x h !! l' = h !! l'.
Proof.
  intros Hne. unfold Refs.push.
  destruct (h !! l) as [[fs|es]|]; try reflexivity.
  apply list_lookup_insert_ne. congruence.
Qed.

(** [add] writes to the builder's array and nowhere else in the old heap. *)
Lemma add_frame ev p b h :
  length h <= length (Refs.add ev p b h)
  /\ forall l, l < length h -> l <> Refs.items b ->
               Refs.add ev p b h !! l = h !! l.
Proof.
  unfold Refs.add.
  destruct p as [| |bb|z|s|l0]; simpl; rewrite push_length, ?length_app;
    simpl; (split; [lia|]); intros l Hl Hne;
    rewrite push_other by assumption;
    repeat (rewrite lookup_app_l by (rewrite ?length_app; simpl; lia));
    reflexivity.
Qed.

Lemma sleep_frame d b h :
  length h <= length (Refs.sleep d b h)
  /\ forall l, l < length h -> l <> Refs.items b ->
               Refs.sleep d b h !! l = h !! l.
Proof.
  unfold Refs.sleep. simpl.
  destruct (add_frame SLEEP_EVENT (Refs.RRef (length h)) b
              (h ++ [Refs.CObject [("duration", d)]])) as [H1 H2].
  rewrite length_app in *. simpl in *. split; [lia|].
  intros l Hl Hne. rewrite H2 by lia. now apply lookup_app_l.
Qed.

Lemma build_frame now b h :
  length (fst (Refs.build now b h)) = (3 + length h)%nat
  /\ forall l, l < length h -> fst (Refs.build now b h) !! l = h !! l.
Proof.
  unfold Refs.build. simpl. rewrite !length_app. simpl. split; [lia|].
  intros l Hl.
  repeat (rewrite lookup_app_l by (rewrite ?length_app; simpl; lia)).
  reflexivity.
Qed.

Lemma apply_builder_op_frame o b h :
  Refs.items (snd (Refs.apply_builder_op o b h)) = Refs.items b
  /\ length h <= length (fst (Refs.apply_builder_op o b h))
  /\ forall l, l < length h -> l <> Refs.items b ->
               fst (Refs.apply_builder_op o b h) !! l = h !! l.
Proof.
  destruct o as [ev p|d|m|now]; cbn [Refs.apply_builder_op fst snd].
  - split; [reflexivity|]. apply add_frame.
  - split; [reflexivity|]. apply sleep_frame.
  - unfold Refs.meta. simpl. split; [reflexivity|].
    rewrite length_app. simpl. split; [lia|].
    intros l Hl _. now apply lookup_app_l.
  - split; [reflexivity|]. destruct (build_frame now b h) as [H1 H2].
    split; [lia|]. intros l Hl _. now apply H2.
Qed.

Lemma apply_builder_ops_frame os : forall b h,
  Refs.items (snd (Refs.apply_builder_ops os b h)) = Refs.items b
  /\ length h <= length (fst (Refs.apply_builder_ops os b h))
  /\ forall l, l < length h -> l <> Refs.items b ->
               fst (Refs.apply_builder_ops os b h) !! l = h !! l.
Proof.
  induction os as [|o os IH]; intros b h; simpl.
  - split; [reflexivity|]. split; [lia|]. reflexivity.
  - destruct (apply_builder_op_frame o b h) as (Hi & Hlen & Hfr).
    destruct (Refs.apply_builder_op o b h) as [h1 b1]. simpl in *.
    destruct (IH b1 h1) as (Hi' & Hlen' & Hfr').
    split; [congruence|]. split; [lia|].
    intros l Hl Hne. rewrite Hfr' by (try lia; congruence). now apply Hfr.
Qed.

Lemma build_locs now b h :
  Refs.b_array (snd (Refs.build now b h)) = length h
  /\ Refs.b_meta (snd (Refs.build now b h)) = S (length h)
  /\ Refs.b_chain (snd (Refs.build now b h)) = S (S (length h)).
Proof.
  unfold Refs.build. simpl. rewrite !length_app. simpl.
  repeat split; lia.
Qed.

Lemma build_cells now b h :
  Refs.metadata b < length h ->
  fst (Refs.build now b h) !! length h
  = Some (Refs.CArray (Refs.elems_of h (Refs.items b)))
  /\ fst (Refs.build now b h) !! S (length h)
     = Some (Refs.CObject (Refs.fields_of h (Refs.RRef (Refs.metadata b))))
  /\ fst (Refs.build now b h) !! S (S (length h))
     = Some (Refs.CObject
               [("id", Refs.RStr (Refs.chainId b));
                ("items", Refs.RRef (length h));
                ("createdAt", Refs.RNum now);
                ("metadata", Refs.RRef (S (length h)))]).
Proof.
  intros Hm. unfold Refs.build, Refs.alloc. cbn [fst snd].
  assert (Hf : Refs.fields_of
                 (h ++ [Refs.CArray (Refs.elems_of h (Refs.items b))])
                 (Refs.RRef (Refs.metadata b))
               = Refs.fields_of h (Refs.RRef (Refs.metadata b))).
  { unfold Refs.fields_of. now rewrite lookup_app_l. }
  rewrite Hf. split; [|split].
  - rewrite <- app_assoc. rewrite <- app_assoc. now apply list_lookup_middle.
  - rewrite <- app_assoc. apply list_lookup_middle.
    rewrite length_app. simpl. lia.
  - rewrite !length_app. simpl.
    replace (length h + 1)%nat with (S (length h)) by lia.
    apply list_lookup_middle. rewrite !length_app. simpl. lia.
Qed.

(** The elements of the array of a built chain are the step objects the
    builder holds, not copies of them. *)
Lemma deep_copy_as_worded_fails : ~ deep_copy_as_worded.
Proof.
  intros H.
  specialize (H 0%Z (snd caller_builder) (fst caller_builder) 0%nat 3%nat).
  assert (Hv : Refs.valid (snd caller_builder) (fst caller_builder)).
  { split; vm_compute; lia. }
  specialize (H Hv eq_refl). vm_compute in H. lia.
Qed.

(** After the build the caller writes [p.n = 2]; the built chain reads it. *)
Lemma caller_write_reaches_built_chain :
  let h := fst caller_built in
  let c := Refs.b_chain (snd caller_built) in
  first_step_n h c = Refs.RNum 1
  /\ first_step_n (Refs.write_field 0 "n" (Refs.RNum 2) h) c = Refs.RNum 2.
Proof. split; reflexivity. Qed.

(** C8. Build snapshot. [build] makes a new array holding the step objects
    the builder holds, a new metadata object with the builder's metadata
    fields, and a new chain record of the builder's id, the time and these
    two; it changes no object that existed. The proxy's [build] puts the
    record into the store under the builder's id, in place of any earlier
    one and leaving the other ids alone. Whatever is called on the builder
    afterwards ([add], [sleep], [meta], [build]) changes neither the array,
    nor the metadata object, nor the record of the built chain, nor any
    other object that existed, the builder's own array apart; a later
    [build], of this or another builder, makes another array, and a builder
    created later has an array of its own. On values, the proxy's [build]
    returns the built record and the bridge's store holds it under the
    builder's id, the other ids as before. *)
Theorem build_snapshot_isolation (now : Z) (b : Refs.UIChainBuilder)
    (h : list Refs.cell) (st : gmap string nat)
    (later : list Refs.builder_op) :
  Refs.valid b h ->
  let h1 := fst (fst (Refs.chain_build now b st h)) in
  let st1 := snd (fst (Refs.chain_build now b st h)) in
  let r := snd (Refs.chain_build now b st h) in
  let h2 := fst (Refs.apply_builder_ops later b h1) in
  (length h <= Refs.b_array r
   /\ Refs.b_array r <> Refs.items b
   /\ h1 !! Refs.b_array r
      = Some (Refs.CArray (Refs.elems_of h (Refs.items b))))
  /\ (length h <= Refs.b_meta r
      /\ Refs.b_meta r <> Refs.metadata b
      /\ h1 !! Refs.b_meta r
         = Some (Refs.CObject
                   (Refs.fields_of h (Refs.RRef (Refs.metadata b)))))
  /\ h1 !! Refs.b_chain r
     = Some (Refs.CObject
               [("id", Refs.RStr (Refs.chainId b));
                ("items", Refs.RRef (Refs.b_array r));
                ("createdAt", Refs.RNum now);
                ("metadata", Refs.RRef (Refs.b_meta r))])
  /\ (forall l, l < length h -> h1 !! l = h !! l)
  /\ (st1 !! Refs.chainId b = Some (Refs.b_chain r)
      /\ forall other, other <> Refs.chainId b -> st1 !! other = st !! other)
  /\ (h2 !! Refs.b_array r = h1 !! Refs.b_array r
      /\ h2 !! Refs.b_meta r = h1 !! Refs.b_meta r
      /\ h2 !! Refs.b_chain r = h1 !! Refs.b_chain r)
  /\ (forall l, l < length h1 -> l <> Refs.items b -> h2 !! l = h1 !! l)
  /\ (forall now' b',
        Refs.b_array (snd (Refs.build now' b' h2)) <> Refs.b_array r)
  /\ (forall cid',
        Refs.items (snd (Refs.create cid' h2)) <> Refs.b_array r
        /\ Refs.items (snd (Refs.create cid' h2)) <> Refs.items b)
  /\ (forall vnow vb br,
        snd (chain_build vnow vb br) = Builder.build vnow vb
        /\ _declaredChains (fst (chain_build vnow vb br)) !! Builder.chainId vb
           = Some (Builder.build vnow vb)
        /\ forall other, other <> Builder.chainId vb ->
             _declaredChains (fst (chain_build vnow vb br)) !! other
             = _declaredChains br !! other).
Proof.
  intros [Hi Hm] h1 st1 r h2.
  assert (Hcb : Refs.chain_build now b st h
                = (fst (Refs.build now b h),
                   <[Refs.chainId b := Refs.b_chain (snd (Refs.build now b h))]> st,
                   snd (Refs.build now b h))).
  { unfold Refs.chain_build. now destruct (Refs.build now b h). }
  assert (Hh1 : h1 = fst (Refs.build now b h)) by (subst h1; now rewrite Hcb).
  assert (Hr : r = snd (Refs.build now b h)) by (subst r; now rewrite Hcb).
  assert (Hst : st1 = <[Refs.chainId b := Refs.b_chain r]> st)
    by (subst st1 r; now rewrite Hcb).
  clearbody h1 st1 r.
  destruct (build_locs now b h) as (La & Lm & Lc).
  destruct (build_cells now b h Hm) as (Ca & Cm & Cc).
  destruct (build_frame now b h) as (Hlen & Hold).
  rewrite <- Hr in La, Lm, Lc. rewrite <- Hh1 in Ca, Cm, Cc, Hlen, Hold.
  destruct (apply_builder_ops_frame later b h1) as (_ & Hlen2 & Hfr).
  fold h2 in Hlen2, Hfr.
  split_and!.
  - lia.
  - lia.
  - now rewrite La.
  - lia.
  - lia.
  - now rewrite Lm.
  - now rewrite Lc, La, Lm.
  - exact Hold.
  - rewrite Hst. apply lookup_insert_eq.
  - intros other Hne. rewrite Hst. now apply lookup_insert_ne.
  - apply Hfr; lia.
  - apply Hfr; lia.
  - apply Hfr; lia.
  - exact Hfr.
  - intros now' b' E. destruct (build_locs now' b' h2) as (La' & _).
    rewrite La' in E. lia.
  - intros cid'. unfold Refs.create. simpl. lia.
  - intros vnow vb br. unfold chain_build. simpl.
    split; [reflexivity|]. split; [apply lookup_insert_eq|].
    intros other Hne. now apply lookup_insert_ne.
Qed.

Lemma build_snapshot_isolation_witness :
  let b := snd caller_builder in
  let h := fst caller_builder in
  let later := [Refs.BAdd "y" Refs.RUndef; Refs.BSleep (Refs.RNum 5)] in
  Refs.valid b h
  /\ fst (Refs.apply_builder_ops later b
            (fst (fst (Refs.chain_build 0 b ∅ h))))
       !! Refs.b_array (snd (Refs.chain_build 0 b ∅ h))
     = Some (Refs.CArray [Refs.RRef 3]).
Proof.
  assert (Hv : Refs.valid (snd caller_builder) (fst caller_builder)).
  { split; vm_compute; lia. }
  split; [exact Hv|].
  destruct (build_snapshot_isolation 0 (snd caller_builder)
              (fst caller_builder) ∅
              [Refs.BAdd "y" Refs.RUndef; Refs.BSleep (Refs.RNum 5)] Hv)
    as (_ & _ & _ & _ & _ & (H & _) & _).
  rewrite H. reflexivity.
Defined.


(** * Further properties of the code *)

(** ** The store and the listeners *)

(** X1. [clear(id)] with a non-empty id removes that chain and no other;
    [clear()] and [clear("")], whose argument fails the truthiness test,
    remove every chain. The listeners stay, and a cleared id is consumed
    as an unknown one. *)
Theorem clear_removes (cid : option string) (br : UIBridge) :
  _emitter (clear cid br) = _emitter br
  /\ (forall c, cid = Some c -> c <> "" ->
        _declaredChains (clear cid br) = delete c (_declaredChains br)
        /\ forall other, other <> c ->
             hasChain other (clear cid br) = hasChain other br)
  /\ (cid = None \/ cid = Some "" ->
      forall c, hasChain c (clear cid br) = false)
  /\ (forall c, cid = Some c ->
        consume c (clear cid br) = (clear cid br, absent_consumption c)).
Proof.
  split; [reflexivity|]. split; [|split].
  - intros c -> Hc. apply String.eqb_neq in Hc. unfold clear. simpl.
    rewrite Hc. simpl. split; [reflexivity|].
    intros other Hne. unfold hasChain. simpl. now rewrite lookup_delete_ne.
  - intros [->| ->] c; apply hasChain_false; simpl; apply lookup_empty.
  - intros c ->. apply consume_absent. simpl.
    destruct (String.eqb c ""); simpl;
      [apply lookup_empty | apply lookup_delete_eq].
Qed.


Lemma emitter_wf_new : emitter_wf (_emitter new_UIBridge).
Proof.
  intros ev r Hin. unfold new_UIBridge, listeners in Hin. simpl in Hin.
  destruct (decide (ev = SLEEP_EVENT)) as [->|Hne].
  - rewrite lookup_insert_eq in Hin. simpl in Hin.
    destruct Hin as [<-|[]]. simpl. lia.
  - rewrite lookup_insert_ne in Hin by congruence.
    rewrite lookup_empty in Hin. destruct Hin.
Qed.

Lemma filter_other_ids n (L : list registration) :
  (forall r, In r L -> reg_id r < n) ->
  List.filter (fun r => negb (reg_id r =? n)%nat) L = L.
Proof.
  induction L as [|r L IH]; intros H; simpl; [reflexivity|].
  assert (Hr : (reg_id r =? n)%nat = false).
  { apply Nat.eqb_neq. specialize (H r (or_introl eq_refl)). lia. }
  rewrite Hr. simpl. f_equal. apply IH. intros r' Hr'. apply H. now right.
Qed.

Lemma listeners_on ev fn em ev' :
  listeners ev' (fst (emitter_on ev fn em))
  = if decide (ev' = ev)
    then (listeners ev em ++ [{| reg_id := next_reg em; reg_fn := fn |}])%list
    else listeners ev' em.
Proof.
  unfold emitter_on, listeners. simpl. case_decide as H.
  - subst. now rewrite lookup_insert_eq.
  - now rewrite lookup_insert_ne by congruence.
Qed.

Lemma listeners_off ev rid em ev' :
  listeners ev' (emitter_off ev rid em)
  = if decide (ev' = ev)
    then List.filter (fun r => negb (reg_id r =? rid)%nat) (listeners ev em)
    else listeners ev' em.
Proof.
  unfold emitter_off. case_decide as H.
  - subst ev'. unfold listeners at 1. simpl.
    destruct (List.filter _ (listeners ev em)) as [|r k] eqn:E.
    + now rewrite lookup_delete_eq.
    + now rewrite lookup_insert_eq.
  - unfold listeners at 1. simpl.
    destruct (List.filter _ (listeners ev em));
      [rewrite lookup_delete_ne by congruence
      |rewrite lookup_insert_ne by congruence]; reflexivity.
Qed.

(** X3. Subscribe, then unsubscribe. [on] adds its wrapper after the
    listeners the event has and touches no other event and no chain; the
    function it returns takes exactly that wrapper out again, so that every
    event has the listeners it had; calling it a second time changes
    nothing. *)
Theorem on_then_unsubscribe (ev : string) (callback : UIEventHandler)
    (br : UIBridge) :
  emitter_wf (_emitter br) ->
  let subscribed := fst (on ev callback br) in
  let rid := snd (on ev callback br) in
  let back := unsubscribe ev rid subscribed in
  listeners ev (_emitter subscribed)
  = (listeners ev (_emitter br)
     ++ [{| reg_id := rid; reg_fn := Wrapped ev callback |}])%list
  /\ (forall ev', ev' <> ev ->
        listeners ev' (_emitter subscribed) = listeners ev' (_emitter br))
  /\ _declaredChains subscribed = _declaredChains br
  /\ (forall ev', listeners ev' (_emitter back) = listeners ev' (_emitter br))
  /\ (forall ev', listeners ev' (_emitter (unsubscribe ev rid back))
                  = listeners ev' (_emitter back))
  /\ emitter_wf (_emitter subscribed).
Proof.
  intros Hwf subscribed rid back.
  assert (Hs : _emitter subscribed
               = fst (emitter_on ev (Wrapped ev callback) (_emitter br))).
  { subst subscribed. unfold on.
    now destruct (emitter_on ev (Wrapped ev callback) (_emitter br)). }
  assert (Hrid : rid = next_reg (_emitter br)) by reflexivity.
  assert (Hstore : _declaredChains subscribed = _declaredChains br).
  { subst subscribed. unfold on.
    now destruct (emitter_on ev (Wrapped ev callback) (_emitter br)). }
  clearbody subscribed rid.
  assert (Hfil : List.filter (fun r => negb (reg_id r =? rid)%nat)
                   (listeners ev (_emitter br)) = listeners ev (_emitter br)).
  { apply filter_other_ids. intros r Hr. rewrite Hrid. eapply Hwf, Hr. }
  assert (Hback : forall ev', listeners ev' (_emitter back)
                              = listeners ev' (_emitter br)).
  { intros ev'. subst back. unfold unsubscribe. cbn [_emitter].
    rewrite listeners_off, Hs. case_decide as H.
    - subst ev'. rewrite listeners_on. case_decide; [|congruence].
      rewrite List.filter_app, Hfil. simpl. rewrite <- Hrid.
      rewrite Nat.eqb_refl. simpl. apply app_nil_r.
    - rewrite listeners_on. case_decide; [congruence|reflexivity]. }
  split_and!.
  - rewrite Hs, listeners_on. case_decide; [|congruence]. now rewrite Hrid.
  - intros ev' Hne. rewrite Hs, listeners_on.
    case_decide; [congruence|reflexivity].
  - exact Hstore.
  - exact Hback.
  - intros ev'. unfold unsubscribe at 1. cbn [_emitter].
    rewrite listeners_off.
    case_decide as H; [|reflexivity]. subst ev'.
    rewrite Hback. exact Hfil.
  - intros ev' r Hin. rewrite Hs in *. rewrite listeners_on in Hin.
    simpl. case_decide as H.
    + apply in_app_or in Hin as [Hin|[<-|[]]].
      * specialize (Hwf _ _ Hin). lia.
      * simpl. lia.
    + specialize (Hwf _ _ Hin). lia.
Qed.

Lemma on_then_unsubscribe_witness :
  emitter_wf (_emitter new_UIBridge)
  /\ listeners "x"
       (_emitter (unsubscribe "x" (snd (on "x" h_seven new_UIBridge))
                    (fst (on "x" h_seven new_UIBridge))))
     = listeners "x" (_emitter new_UIBridge).
Proof.
  split; [exact emitter_wf_new|].
  destruct (on_then_unsubscribe "x" h_seven new_UIBridge emitter_wf_new)
    as (_ & _ & _ & H & _).
  exact (H "x").
Defined.

(** ** What a consumption can end in *)

Lemma emit_all_calls ls p :
  nullish p = false ->
  calls (emit_all ls p)
  = flat_map (fun r => calls (run_listener (reg_fn r) p)) ls
  /\ errors (emit_all ls p)
     = flat_map (fun r => errors (run_listener (reg_fn r) p)) ls.
Proof.
  intros Hp. induction ls as [|r ls [IH1 IH2]]; simpl; [auto|].
  rewrite (run_listener_no_raise _ _ Hp). simpl. now rewrite IH1, IH2.
Qed.

(** What the wrapper and the built-in listener pass to the continuation is
    a plain value: a thenable comes from a handler itself. *)
Lemma thenable_by_handler l p c fate :
  In c (calls (run_listener l p)) -> c_arg c = Thenable fate ->
  c_who c = ByHandler.
Proof.
  intros Hin Ha. destruct l as [|ev cb]; simpl in Hin.
  - unfold sleepListener in Hin. destruct (nullish p); simpl in Hin;
      [contradiction|]. destruct Hin as [<-|[]]. discriminate Ha.
  - rewrite calls_split in Hin. apply in_app_or in Hin as [Hin|Hin].
    + unfold handler_calls in Hin.
      apply in_app_or in Hin as [Hin|Hin];
        apply in_flat_map in Hin as (a & _ & Hin).
      * destruct a as [arg|]; simpl in Hin; [|contradiction].
        destruct Hin as [<-|[]]. reflexivity.
      * destruct a as [t [arg|]]; simpl in Hin; [|contradiction].
        destruct Hin as [<-|[]]. reflexivity.
    + rewrite wrapper_calls_cases in Hin.
      destruct (outcome (cb p)) as [v|e|[d v|d e|]];
        destruct (stopped_sync (cb p));
        try destruct (stopped_until d (cb p));
        simpl in Hin; try contradiction;
        destruct Hin as [<-|[]]; discriminate Ha.
Qed.

(** The first call of a dispatch by the executor, when it passes a
    thenable, is a handler's own. *)
Lemma deciding_call_thenable em item carry c fate :
  deciding_call em (dispatched item carry) = Some c ->
  c_arg c = Thenable fate ->
  c_who c = ByHandler.
Proof.
  unfold deciding_call. simpl. intros Hs Ha.
  assert (Hin : In c (calls (emit (event item)
                               (with_prev (props item) carry) em))).
  { apply schedule_In. destruct (schedule _) as [|c0 tl]; [discriminate|].
    injection Hs as <-. now left. }
  unfold emit in Hin.
  destruct (emit_all_calls (listeners (event item) em)
              (with_prev (props item) carry) eq_refl) as [Hc _].
  rewrite Hc in Hin. apply in_flat_map in Hin as (r & _ & Hin).
  now apply (thenable_by_handler (reg_fn r)
               (with_prev (props item) carry) c fate).
Qed.

(** How the turn of a dispatched step ends, by the first call. *)
Lemma dispatched_step_result em item rest carry :
  (0 <? listenerCount (event item) em)%nat = true ->
  _executeChain em (item :: rest) carry
  = {| history := [dispatched item carry];
       logged := errors (emit (event item) (with_prev (props item) carry) em);
       result :=
         match deciding_call em (dispatched item carry) with
         | None => Pending
         | Some c => suspended (resolve (c_arg c)) rest
         end |}.
Proof.
  intros Hc. simpl. rewrite Hc, settle_step_emit.
  unfold awaited, deciding_call, dispatched. simpl.
  destruct (schedule _); reflexivity.
Qed.

Lemma history_nil em its c0 :
  history (_executeChain em its c0) = [] <-> its = [].
Proof.
  split; [|intros ->; reflexivity].
  destruct its as [|item rest]; [reflexivity|]. simpl.
  destruct (0 <? listenerCount (event item) em)%nat; discriminate.
Qed.

(** A turn that does not end the chain ends at a dispatched step, the last
    one begun, and the first call of its dispatch decides how. *)
Lemma executeChain_last_step em its : forall c0,
  (forall v, result (_executeChain em its c0) <> Resolved v) ->
  exists item carry,
    last (history (_executeChain em its c0)) = Some (dispatched item carry)
    /\ result (_executeChain em its c0)
       = match deciding_call em (dispatched item carry) with
         | None => Pending
         | Some c =>
             suspended (resolve (c_arg c))
               (drop (length (history (_executeChain em its c0))) its)
         end.
Proof.
  induction its as [|item rest IH]; intros c0 Hn.
  - exfalso. now apply (Hn c0).
  - destruct (0 <? listenerCount (event item) em)%nat eqn:Hc.
    + rewrite (dispatched_step_result em item rest c0 Hc) in *.
      exists item, c0. simpl. rewrite drop_0. auto.
    + simpl in *. rewrite Hc in *. simpl in *.
      destruct (IH _ Hn) as (it & ca & Hl & Hr).
      exists it, ca. rewrite last_cons, Hl. auto.
Qed.

(** A turn that ends the chain has passed its last step through. *)
Lemma executeChain_resolved_last em its c0 v st :
  result (_executeChain em its c0) = Resolved v ->
  last (history (_executeChain em its c0)) = Some st ->
  s_dispatched st = false.
Proof.
  intros Hr Hl.
  destruct (spec_turn_facts _ _ _ _ _ _ (executeChain_spec em its c0))
    as (_ & _ & _ & T4 & _).
  destruct (T4 v Hr) as (_ & _ & H). now apply H.
Qed.

(** The turn that changes a consumption is one in which the executor runs
    on the listeners the bridge has then: the call of [consume] that makes
    it, from the empty context and with the steps of the chain, or a turn
    of its own, from the context awaited and with the steps still to
    run. *)
Lemma consumption_changed o s k cid r' :
  snd (apply_op o s) !! k = Some (cid, r') ->
  snd s !! k = Some (cid, r')
  \/ (snd s !! k = None /\ o = OpConsume cid
      /\ _declaredChains (fst s) !! cid = None
      /\ r' = absent_consumption cid)
  \/ exists before its c0,
       steps r'
       = (before ++ history (_executeChain (_emitter (fst s)) its c0))%list
       /\ promise r' = result (_executeChain (_emitter (fst s)) its c0)
       /\ ((snd s !! k = None /\ o = OpConsume cid /\ before = []
            /\ c0 = empty_obj
            /\ exists c, _declaredChains (fst s) !! cid = Some c
                         /\ its = items c)
           \/ exists r, snd s !! k = Some (cid, r) /\ o = OpResume k
                        /\ promise r = Awaits c0 its /\ before = steps r).
Proof.
  rewrite consumption_after. intros H.
  destruct o as [now b|c|c|ev cb|ev rid|k']; auto.
  - apply lookup_app_Some in H as [H|[Hlen H]]; [auto|].
    apply list_lookup_singleton_Some in H as [Hk H].
    injection H as -> <-.
    assert (Hnone : snd s !! k = None) by (apply lookup_ge_None; lia).
    destruct (_declaredChains (fst s) !! cid) as [ch|] eqn:L.
    + right. right. exists [], (items ch), empty_obj.
      destruct (consume_present cid (fst s) ch L) as (_ & _ & Hs & Hp).
      rewrite Hs, Hp. split_and!; auto. left. split_and!; eauto.
    + right. left. rewrite (consume_absent cid (fst s) L). auto.
  - case_decide as E; [|auto]. subst k'.
    destruct (snd s !! k) as [[i r]|] eqn:Hk; [|discriminate].
    simpl in H. injection H as -> <-.
    unfold resume.
    destruct (promise r) as [v|e| |v rest] eqn:Ep; auto.
    right. right. exists (steps r), rest, v. simpl.
    split_and!; auto. right. exists r. auto.
Qed.

(** X4. The promise of [consume] rejects only through a promise that a
    handler itself hands to the continuation. In the turn in which a
    consumption's promise is rejected, be that the call of [consume] or a
    turn in which the consumption goes on, the last step begun was
    dispatched, the first call to the continuation in that dispatch, on
    the listeners of the turn, was made by a handler itself, and what it
    passed was a thenable that rejects, whose reason is that of the
    promise. A handler that throws, a handler whose returned promise
    rejects, and the built-in listener never do this. Conversely a turn
    that ends at such a dispatch ends in that rejection. *)
Theorem consume_rejects_only_by_thenable (s : session) (o : bridge_op)
    (k : nat) (cid : string) (r' : consumption) (e : value) :
  snd (apply_op o s) !! k = Some (cid, r') ->
  promise r' = Rejected e ->
  (forall r, snd s !! k = Some (cid, r) -> promise r <> Rejected e) ->
  (exists st c d,
     last (steps r') = Some st
     /\ s_dispatched st = true
     /\ deciding_call (_emitter (fst s)) st = Some c
     /\ c_who c = ByHandler
     /\ c_arg c = Thenable (Rejects d e))
  /\ (forall em item rest carry c d e',
        (0 <? listenerCount (event item) em)%nat = true ->
        deciding_call em (dispatched item carry) = Some c ->
        c_arg c = Thenable (Rejects d e') ->
        result (_executeChain em (item :: rest) carry) = Rejected e')
  /\ (forall l p c,
        In c (calls (run_listener l p)) -> c_who c <> ByHandler ->
        exists v, c_arg c = Plain v).
Proof.
  intros Hk Hrej Hbefore. split_and!.
  - destruct (consumption_changed o s k cid r' Hk)
      as [H|[(_ & _ & _ & ->)|(before & its & c0 & Hs & Hp & Hturn)]].
    + now destruct (Hbefore r' H).
    + discriminate Hrej.
    + rewrite Hp in Hrej.
      destruct (executeChain_last_step (_emitter (fst s)) its c0)
        as (item & carry & Hl & Hr).
      { intros v. rewrite Hrej. discriminate. }
      rewrite Hrej in Hr.
      destruct (deciding_call (_emitter (fst s)) (dispatched item carry))
        as [c|] eqn:Hd; [|discriminate].
      destruct (c_arg c) as [a|[d a|d a|]] eqn:Ha; simpl in Hr;
        try discriminate.
      injection Hr as ->.
      exists (dispatched item carry), c, d. split_and!; auto.
      * rewrite Hs.
        destruct (history (_executeChain (_emitter (fst s)) its c0))
          as [|h0 hs] eqn:Eh; [discriminate|].
        rewrite last_app. now rewrite Hl.
      * exact (deciding_call_thenable (_emitter (fst s)) item carry c
                 (Rejects d a) Hd Ha).
  - intros em item rest carry c d e' Hc Hd Ha.
    rewrite (dispatched_step_result em item rest carry Hc). simpl.
    now rewrite Hd, Ha.
  - intros l p c Hin Hwho.
    destruct (c_arg c) as [v|fate] eqn:Ha; [eauto|].
    now destruct (Hwho (thenable_by_handler l p c fate Hin Ha)).
Qed.

Lemma consume_rejects_only_by_thenable_witness :
  let s : session := (rejecting_bridge, []) in
  exists r',
    snd (apply_op (OpConsume "r") s) !! 0%nat = Some ("r", r')
    /\ promise r' = Rejected (VStr "boom")
    /\ exists st c d,
         last (steps r') = Some st
         /\ s_dispatched st = true
         /\ deciding_call (_emitter rejecting_bridge) st = Some c
         /\ c_who c = ByHandler
         /\ c_arg c = Thenable (Rejects d (VStr "boom")).
Proof.
  eexists. split; [reflexivity|]. split; [reflexivity|].
  apply (consume_rejects_only_by_thenable (rejecting_bridge, [])
           (OpConsume "r") 0 "r" _ (VStr "boom") eq_refl eq_refl).
  intros r H. discriminate H.
Defined.

(** X5. When [consume] resolves with [undefined]. The call itself returns
    a promise already resolved with [undefined] exactly for an id that is
    not in the store. A consumption that has begun is resolved with
    [undefined] only in a turn in which it goes on from a step that was
    awaited with [undefined] and was the last of the chain; and the
    executor awaits a step with [undefined] only when the first call to the
    continuation in its dispatch was made by a handler itself, with a
    thenable fulfilled with [undefined]: the parameter default turns every
    other missing argument into the empty object, and a step passed through
    hands on an object. *)
Theorem undefined_result_unknown_or_promised (s : session) (o : bridge_op)
    (k : nat) (cid : string) (r' : consumption) :
  snd (apply_op o s) !! k = Some (cid, r') ->
  (forall r, snd s !! k = Some (cid, r) -> r <> r') ->
  (forall br, promise (snd (consume cid br)) = Resolved VUndef
              <-> hasChain cid br = false)
  /\ (promise r' = Resolved VUndef ->
      (o = OpConsume cid /\ hasChain cid (fst s) = false
       /\ r' = absent_consumption cid)
      \/ exists r, o = OpResume k /\ snd s !! k = Some (cid, r)
                   /\ promise r = Awaits VUndef [])
  /\ (forall v rest, promise r' = Awaits v rest -> is_defined v = false ->
        exists st c d,
          last (steps r') = Some st
          /\ s_dispatched st = true
          /\ deciding_call (_emitter (fst s)) st = Some c
          /\ c_who c = ByHandler
          /\ c_arg c = Thenable (Fulfils d VUndef)).
Proof.
  intros Hk Hnew.
  assert (Hdef : forall em its c0 v,
             result (_executeChain em its c0) = Resolved v ->
             (its = [] /\ v = c0) \/ is_object v = true).
  { intros em its c0 v Hr.
    destruct (spec_turn_facts _ _ _ _ _ _ (executeChain_spec em its c0))
      as (T1 & _ & _ & T4 & _).
    destruct (T4 v Hr) as (Hl & Hn & Hlast).
    destruct (last (history (_executeChain em its c0))) as [st|] eqn:E.
    - right. destruct (Hlast st eq_refl) as [_ ->].
      rewrite last_lookup in E.
      destruct (T1 _ _ E) as (item & _ & _ & Ho & _). exact Ho.
    - left. apply last_None in E. split; [|now apply Hn].
      now apply history_nil in E. }
  split_and!.
  - intros br. split.
    + intros H. apply hasChain_false.
      destruct (_declaredChains br !! cid) as [c|] eqn:Hc; [|reflexivity].
      destruct (consume_present cid br c Hc) as (_ & _ & _ & Hp).
      rewrite Hp in H.
      destruct (Hdef _ _ _ _ H) as [[_ E]|E]; discriminate E.
    + intros H. apply hasChain_false in H.
      now rewrite (consume_absent cid br H).
  - intros Hu.
    destruct (consumption_changed o s k cid r' Hk)
      as [H|[(_ & Ho & Habs & Hr)|(before & its & c0 & Hs & Hp & Hturn)]].
    + now destruct (Hnew r' H).
    + left. split_and!; auto. now apply hasChain_false.
    + rewrite Hp in Hu.
      destruct (Hdef _ _ _ _ Hu) as [[-> E]|E]; [|discriminate E].
      destruct Hturn as [(_ & _ & _ & -> & _)|(r & Hr & Ho & Hpr & _)];
        [discriminate E|].
      right. exists r. subst c0. auto.
  - intros v rest Hp Hv.
    destruct (consumption_changed o s k cid r' Hk)
      as [H|[(_ & _ & _ & ->)|(before & its & c0 & Hs & Hp' & Hturn)]].
    + now destruct (Hnew r' H).
    + discriminate Hp.
    + rewrite Hp' in Hp.
      destruct (executeChain_last_step (_emitter (fst s)) its c0)
        as (item & carry & Hl & Hr).
      { intros w. rewrite Hp. discriminate. }
      rewrite Hp in Hr.
      destruct (deciding_call (_emitter (fst s)) (dispatched item carry))
        as [c|] eqn:Hd; [|discriminate].
      destruct (c_arg c) as [a|[d a|d a|]] eqn:Ha; simpl in Hr;
        try discriminate; injection Hr as Hva _.
      * exfalso. subst v. unfold resolve_with in Hv.
        destruct (is_defined a) eqn:Ea; [congruence|discriminate].
      * subst a. destruct v; try discriminate Hv.
        exists (dispatched item carry), c, d. split_and!; auto.
        -- rewrite Hs.
           destruct (history (_executeChain (_emitter (fst s)) its c0))
             as [|h0 hs] eqn:Eh; [discriminate|].
           rewrite last_app. now rewrite Hl.
        -- exact (deciding_call_thenable (_emitter (fst s)) item carry c
                    (Fulfils d VUndef) Hd Ha).
Qed.

Lemma undefined_result_unknown_or_promised_witness :
  let s := consume_then "u" [] undefined_bridge in
  snd (apply_op (OpResume 0) s) !! 0%nat
  = Some ("u", {| console := [Log_consuming "u" 1];
                  steps := [dispatched {| event := "x"; props := empty_obj |}
                              empty_obj];
                  promise := Resolved VUndef |})
  /\ exists r, snd s !! 0%nat = Some ("u", r)
               /\ promise r = Awaits VUndef [].
Proof.
  split; [reflexivity|].
  destruct (undefined_result_unknown_or_promised
              (consume_then "u" [] undefined_bridge) (OpResume 0) 0 "u"
              {| console := [Log_consuming "u" 1];
                 steps := [dispatched {| event := "x"; props := empty_obj |}
                             empty_obj];
                 promise := Resolved VUndef |} eq_refl)
    as (_ & H & _).
  - intros r Hr. injection Hr as <-. discriminate.
  - destruct (H eq_refl) as [(Ho & _)|(r & _ & Hr & Hp)]; [discriminate Ho|].
    eauto.
Defined.

(** X6. A chain none of whose steps has a listener runs to its end at once:
    nothing is dispatched or logged, and it resolves with the steps'
    parameters nested one in the other through [prev], the first step
    innermost. *)
Theorem executeChain_all_passed_through (em : EventEmitter)
    (its : list UIEventChainItem) (c0 : value) :
  (forall item, In item its -> listenerCount (event item) em = 0%nat) ->
  _executeChain em its c0
  = {| history := passed_records its c0;
       logged := [];
       result := Resolved (passed_through its c0) |}.
Proof.
  revert c0. induction its as [|item rest IH]; intros c0 H; simpl.
  - reflexivity.
  - rewrite (H item (or_introl eq_refl)). simpl.
    rewrite IH by (intros i Hi; apply H; now right). reflexivity.
Qed.

Lemma executeChain_all_passed_through_witness :
  let its := [{| event := "a"; props := VObj [("k", VNum 1)] |};
              {| event := "b"; props := empty_obj |}] in
  (forall item, In item its ->
     listenerCount (event item) (_emitter new_UIBridge) = 0%nat)
  /\ result (_executeChain (_emitter new_UIBridge) its empty_obj)
     = Resolved (VObj [("prev", VObj [("k", VNum 1); ("prev", VObj [])])]).
Proof.
  assert (H : forall item,
             In item [{| event := "a"; props := VObj [("k", VNum 1)] |};
                      {| event := "b"; props := empty_obj |}] ->
             listenerCount (event item) (_emitter new_UIBridge) = 0%nat).
  { intros item [<-|[<-|[]]]; reflexivity. }
  split; [exact H|].
  rewrite (executeChain_all_passed_through _ _ _ H). reflexivity.
Defined.

(** X8. A consumption that waits for ever. In the turn in which a
    consumption's promise is left pending for good, be that the call of
    [consume] or a turn in which the consumption goes on, the last step
    begun was dispatched, and in that dispatch, on the listeners of the
    turn, either no listener ever calls the continuation, or the first
    call is made by a handler itself with a thenable that never settles.
    Conversely a turn that ends at such a dispatch leaves the promise
    pending. No later turn changes such a consumption: the steps after that
    one are never begun. *)
Theorem consume_pending_iff_stalled (s : session) (o : bridge_op)
    (k : nat) (cid : string) (r' : consumption) :
  snd (apply_op o s) !! k = Some (cid, r') ->
  promise r' = Pending ->
  (forall r, snd s !! k = Some (cid, r) -> promise r <> Pending) ->
  (exists st,
     last (steps r') = Some st
     /\ s_dispatched st = true
     /\ (calls (emit (s_event st) (s_props st) (_emitter (fst s))) = []
         \/ exists c, deciding_call (_emitter (fst s)) st = Some c
                      /\ c_who c = ByHandler
                      /\ c_arg c = Thenable NeverSettles))
  /\ (forall em item rest carry,
        (0 <? listenerCount (event item) em)%nat = true ->
        (calls (emit (event item) (with_prev (props item) carry) em) = []
         \/ exists c, deciding_call em (dispatched item carry) = Some c
                      /\ c_arg c = Thenable NeverSettles) ->
        result (_executeChain em (item :: rest) carry) = Pending)
  /\ (forall later,
        snd (apply_ops later (apply_op o s)) !! k = Some (cid, r')).
Proof.
  intros Hk Hpen Hbefore. split_and!.
  - destruct (consumption_changed o s k cid r' Hk)
      as [H|[(_ & _ & _ & ->)|(before & its & c0 & Hs & Hp & Hturn)]].
    + now destruct (Hbefore r' H).
    + discriminate Hpen.
    + rewrite Hp in Hpen.
      destruct (executeChain_last_step (_emitter (fst s)) its c0)
        as (item & carry & Hl & Hr).
      { intros v. rewrite Hpen. discriminate. }
      rewrite Hpen in Hr.
      exists (dispatched item carry). split_and!; auto.
      * rewrite Hs.
        destruct (history (_executeChain (_emitter (fst s)) its c0))
          as [|h0 hs] eqn:Eh; [discriminate|].
        rewrite last_app. now rewrite Hl.
      * destruct (deciding_call (_emitter (fst s)) (dispatched item carry))
          as [c|] eqn:Hd.
        -- right. exists c.
           destruct (c_arg c) as [a|[d a|d a|]] eqn:Ha; simpl in Hr;
             try discriminate.
           split_and!; auto.
           exact (deciding_call_thenable (_emitter (fst s)) item carry c
                    NeverSettles Hd Ha).
        -- left. unfold deciding_call in Hd.
           destruct (schedule _) as [|c0' tl] eqn:Es; [|discriminate].
           apply (proj1 (schedule_nil _)) in Es. exact Es.
  - intros em item rest carry Hc H.
    rewrite (dispatched_step_result em item rest carry Hc). simpl.
    destruct H as [H|(c & Hd & Ha)].
    + unfold deciding_call. simpl. now rewrite H.
    + now rewrite Hd, Ha.
  - intros later. generalize dependent (apply_op o s). clear Hbefore.
    induction later as [|o' later IH]; intros s' Hk'; simpl; [exact Hk'|].
    apply IH. rewrite (consumption_turn o' s' k cid r' Hk').
    destruct o'; try reflexivity.
    case_decide; [|reflexivity].
    rewrite resume_settled; [reflexivity|].
    intros v rest. rewrite Hpen. discriminate.
Qed.

Lemma consume_pending_iff_stalled_witness :
  let s : session := (fault_bridge h_never, []) in
  exists r',
    snd (apply_op (OpConsume "f") s) !! 0%nat = Some ("f", r')
    /\ promise r' = Pending
    /\ map s_event (steps r') = ["x"].
Proof.
  eexists. split; [reflexivity|]. split; [reflexivity|].
  destruct (consume_pending_iff_stalled (fault_bridge h_never, [])
              (OpConsume "f") 0 "f" _ eq_refl eq_refl)
    as ((st & Hl & _) & _).
  - intros r H. discriminate H.
  - reflexivity.
Defined.

(** ** Builder metadata *)

Lemma has_key_false_get k fs : has_key k fs = false -> assoc_get k fs = VUndef.
Proof.
  induction fs as [|[k' v] fs IH]; simpl; [reflexivity|].
  intros H. apply orb_false_elim in H as [H1 H2]. rewrite H1. auto.
Qed.

Lemma merge_get_absent k fs : forall acc,
  has_key k fs = false ->
  assoc_get k (fold_left (fun a kv => fset (fst kv) (snd kv) a) fs acc)
  = assoc_get k acc.
Proof.
  induction fs as [|[k' v] fs IH]; intros acc H; simpl in *; [reflexivity|].
  apply orb_false_elim in H as [H1 H2]. rewrite IH by assumption.
  apply assoc_get_fset_ne. apply String.eqb_neq in H1. congruence.
Qed.

Lemma merge_get_present k fs : forall acc,
  NoDup (map fst fs) -> has_key k fs = true ->
  assoc_get k (fold_left (fun a kv => fset (fst kv) (snd kv) a) fs acc)
  = assoc_get k fs.
Proof.
  induction fs as [|[k' v] fs IH]; intros acc Hnd H; simpl in *;
    [discriminate|].
  apply NoDup_cons in Hnd as [Hnot Hnd].
  destruct (String.eqb k k') eqn:E.
  - apply String.eqb_eq in E. subst k'.
    rewrite merge_get_absent; [apply assoc_get_fset_eq|].
    destruct (has_key k fs) eqn:Hk; [|reflexivity]. exfalso. apply Hnot.
    unfold has_key in Hk. apply existsb_exists in Hk as ([k1 v1] & Hin & Hk).
    apply String.eqb_eq in Hk. simpl in Hk. subst k1.
    apply list_elem_of_In. apply in_map_iff. exists (k, v1). auto.
  - simpl in H. now apply IH.
Qed.

(** X7. [meta] merges by key: after [meta(m)] a key of [m] reads as in [m]
    and any other key as before, and so does the metadata of a chain built
    then; a later [meta] therefore overwrites the keys it shares with an
    earlier one. The id and the steps are not touched. *)
Theorem meta_overwrites_by_key (m : value) (b : Builder.UIChainBuilder)
    (k : string) (now : Z) :
  NoDup (map fst (own_fields m)) ->
  get k (metadata (Builder.build now (Builder.meta m b)))
  = (if has_key k (own_fields m) then get k m
     else get k (Builder.b_metadata b))
  /\ get k (Builder.b_metadata (Builder.meta m b))
     = get k (metadata (Builder.build now (Builder.meta m b)))
  /\ Builder.b_items (Builder.meta m b) = Builder.b_items b
  /\ Builder.chainId (Builder.meta m b) = Builder.chainId b.
Proof.
  intros Hnd. split; [|split; [|split]]; try reflexivity.
  unfold Builder.build, Builder.meta, spread2. simpl.
  destruct (has_key k (own_fields m)) eqn:Hk.
  - rewrite merge_get_present by assumption.
    now rewrite <- (get_own_fields k m).
  - rewrite merge_get_absent by assumption.
    now rewrite <- (get_own_fields k (Builder.b_metadata b)).
Qed.

Lemma meta_overwrites_by_key_witness :
  let m1 := VObj [("owner", VStr "a"); ("tag", VNum 1)] in
  let m2 := VObj [("tag", VNum 2)] in
  let b := Builder.meta m1 (chain "c") in
  NoDup (map fst (own_fields m2))
  /\ get "tag" (metadata (Builder.build 0 (Builder.meta m2 b))) = VNum 2.
Proof.
  assert (H : NoDup (map fst (own_fields (VObj [("tag", VNum 2)])))).
  { simpl. apply NoDup_singleton. }
  split; [exact H|].
  destruct (meta_overwrites_by_key (VObj [("tag", VNum 2)])
              (Builder.meta (VObj [("owner", VStr "a"); ("tag", VNum 1)])
                 (chain "c")) "tag" 0 H) as [E _].
  rewrite E. reflexivity.
Defined.

(** ** Several listeners for one event *)

(** The first call of the dispatch turn is the first one to happen. *)
Lemma schedule_first_in_turn (l1 : list call) (c : call) (l2 : list call) :
  (forall c', In c' l1 -> c_time c' <> 0%nat) ->
  c_time c = 0%nat ->
  exists tl, schedule (l1 ++ c :: l2) = c :: tl.
Proof.
  intros H1 Hc. induction l1 as [|a l1 IH].
  - change (schedule ([] ++ c :: l2)) with (insert_call c (schedule l2)).
    destruct (schedule l2) as [|c' s] eqn:E; simpl; [eauto|].
    rewrite Hc. simpl. eauto.
  - destruct IH as [tl Htl]; [intros c' Hc'; apply H1; now right|].
    change (schedule ((a :: l1) ++ c :: l2))
      with (insert_call a (schedule (l1 ++ c :: l2))).
    rewrite Htl. simpl.
    destruct (c_time a <=? c_time c)%nat eqn:E; [|eauto].
    apply Nat.leb_le in E. specialize (H1 a (or_introl eq_refl)). lia.
Qed.

(** X9. With several listeners for a step's event, the step is decided by
    the first call to the continuation made in the turn of the dispatch,
    the listeners taken in the order of their registration: the loop goes
    on with the argument of that call; what listeners call later, from
    timers or after awaits, is ignored, and every listener's errors are
    logged. A handler registered under the reserved delay name so decides a
    delay step before the built-in timer fires. *)
Theorem first_call_of_turn_decides (em : EventEmitter)
    (item : UIEventChainItem) (rest : list UIEventChainItem) (carry : value)
    (l1 : list registration) (r : registration) (l2 : list registration)
    (cs1 : list call) (c : call) (cs2 : list call) :
  listeners (event item) em = (l1 ++ r :: l2)%list ->
  (forall r' c', In r' l1 ->
     In c' (calls (run_listener (reg_fn r') (with_prev (props item) carry))) ->
     c_time c' <> 0%nat) ->
  calls (run_listener (reg_fn r) (with_prev (props item) carry))
  = (cs1 ++ c :: cs2)%list ->
  (forall c', In c' cs1 -> c_time c' <> 0%nat) ->
  c_time c = 0%nat ->
  _executeChain em (item :: rest) carry
  = {| history := [dispatched item carry];
       logged :=
         flat_map (fun r' => errors (run_listener (reg_fn r')
                                       (with_prev (props item) carry)))
                  (listeners (event item) em);
       result := suspended (resolve (c_arg c)) rest |}.
Proof.
  intros Hl H1 Hr Hcs1 Hc.
  assert (Hcount : (0 <? listenerCount (event item) em)%nat = true).
  { unfold listenerCount. rewrite Hl, length_app. simpl.
    apply Nat.ltb_lt. lia. }
  rewrite (dispatched_step_result em item rest carry Hcount).
  destruct (emit_all_calls (listeners (event item) em)
              (with_prev (props item) carry) eq_refl) as [Hcalls Herrs].
  unfold deciding_call, dispatched. cbn [s_event s_props]. unfold emit.
  rewrite Herrs, Hcalls. f_equal.
  set (f := fun r' => calls (run_listener (reg_fn r')
                               (with_prev (props item) carry))) in *.
  destruct (schedule_first_in_turn (flat_map f l1 ++ cs1) c
              (cs2 ++ flat_map f l2)) as [tl Htl].
  - intros c' Hin. apply in_app_or in Hin as [Hin|Hin]; [|now apply Hcs1].
    apply in_flat_map in Hin as (r' & Hr' & Hc'). eapply H1; eauto.
  - exact Hc.
  - assert (E : flat_map f (listeners (event item) em)
                = ((flat_map f l1 ++ cs1) ++ c :: cs2 ++ flat_map f l2)%list).
    { rewrite Hl, flat_map_app. simpl. subst f. simpl. rewrite Hr.
      rewrite <- !app_assoc. reflexivity. }
    rewrite E, Htl. reflexivity.
Qed.

Lemma first_call_of_turn_decides_witness :
  let em := _emitter sleep_hooked_bridge in
  map reg_fn (listeners SLEEP_EVENT em)
  = [BuiltinSleep; Wrapped SLEEP_EVENT h_seven]
  /\ result (_executeChain em [sleep_item (VNum 50)] empty_obj)
     = Awaits (VObj [("value", VNum 7);
                     ("prev", VObj [("duration", VNum 50);
                                    ("prev", VObj [])])]) [].
Proof.
  split; [reflexivity|].
  rewrite (first_call_of_turn_decides (_emitter sleep_hooked_bridge)
             (sleep_item (VNum 50)) [] empty_obj
             [{| reg_id := 0; reg_fn := BuiltinSleep |}]
             {| reg_id := 1; reg_fn := Wrapped SLEEP_EVENT h_seven |} []
             []
             (wrapper_call 0
                (VObj [("value", VNum 7);
                       ("prev", VObj [("duration", VNum 50);
                                      ("prev", VObj [])])]))
             []).
  - reflexivity.
  - reflexivity.
  - intros r' c' [<-|[]] [<-|[]]. simpl. lia.
  - reflexivity.
  - intros c' [].
  - reflexivity.
Defined.

(** ** Steps and their props, on references *)

(** X10. [add] keeps no copy of the props it is given: it appends to the
    builder's array one new step object whose [props] is the caller's
    object itself, or a new empty object when the caller gave none; [sleep]
    appends a step under the reserved name whose props is a new object
    holding the duration. Nothing else that existed is written. *)
Theorem refs_add_shares_props (ev : string) (p d : Refs.rvalue)
    (b : Refs.UIChainBuilder) (h : list Refs.cell)
    (es : list Refs.rvalue) :
  h !! Refs.items b = Some (Refs.CArray es) ->
  (exists step,
     Refs.elems_of (Refs.add ev p b h) (Refs.items b)
     = (es ++ [Refs.RRef step])%list
     /\ length h <= step
     /\ Refs.field (Refs.add ev p b h) (Refs.RRef step) "event" = Refs.RStr ev
     /\ Refs.field (Refs.add ev p b h) (Refs.RRef step) "props"
        = match p with
          | Refs.RUndef => Refs.RRef (length h)
          | _ => p
          end
     /\ (p = Refs.RUndef ->
         Refs.add ev p b h !! length h = Some (Refs.CObject [])))
  /\ (exists step,
        Refs.elems_of (Refs.sleep d b h) (Refs.items b)
        = (es ++ [Refs.RRef step])%list
        /\ Refs.field (Refs.sleep d b h) (Refs.RRef step) "event"
           = Refs.RStr SLEEP_EVENT
        /\ Refs.field (Refs.sleep d b h) (Refs.RRef step) "props"
           = Refs.RRef (length h)
        /\ Refs.sleep d b h !! length h
           = Some (Refs.CObject [("duration", d)]))
  /\ (forall l, l < length h -> l <> Refs.items b ->
        Refs.add ev p b h !! l = h !! l /\ Refs.sleep d b h !! l = h !! l).
Proof.
  intros Harr.
  assert (Hlt : Refs.items b < length h) by (eapply lookup_lt_Some; eauto).
  assert (Hadd : forall (h0 : list Refs.cell) (q : Refs.rvalue) (e : string),
             h0 !! Refs.items b = Some (Refs.CArray es) ->
             q <> Refs.RUndef ->
             let h' := Refs.add e q b h0 in
             Refs.elems_of h' (Refs.items b)
             = (es ++ [Refs.RRef (length h0)])%list
             /\ Refs.field h' (Refs.RRef (length h0)) "event" = Refs.RStr e
             /\ Refs.field h' (Refs.RRef (length h0)) "props" = q
             /\ forall l, l < length h0 -> l <> Refs.items b ->
                          h' !! l = h0 !! l).
  { intros h0 q e H0 Hq h'.
    assert (Hlt0 : Refs.items b < length h0) by (eapply lookup_lt_Some; eauto).
    assert (Hh' : h' = Refs.push (Refs.items b) (Refs.RRef (length h0))
                         (h0 ++ [Refs.CObject [("event", Refs.RStr e);
                                               ("props", q)]])%list).
    { subst h'. unfold Refs.add. destruct q; try contradiction; reflexivity. }
    assert (Hp : h' = <[Refs.items b :=
                         Refs.CArray (es ++ [Refs.RRef (length h0)])%list]>
                        (h0 ++ [Refs.CObject [("event", Refs.RStr e);
                                              ("props", q)]])%list).
    { rewrite Hh'. unfold Refs.push. rewrite lookup_app_l by assumption.
      now rewrite H0. }
    clearbody h'. clear Hh'. subst h'. split_and!.
    - unfold Refs.elems_of. rewrite list_lookup_insert_eq; [reflexivity|].
      rewrite length_app. simpl. lia.
    - unfold Refs.field, Refs.fields_of.
      rewrite list_lookup_insert_ne by lia.
      rewrite list_lookup_middle by reflexivity. reflexivity.
    - unfold Refs.field, Refs.fields_of.
      rewrite list_lookup_insert_ne by lia.
      rewrite list_lookup_middle by reflexivity. reflexivity.
    - intros l Hl Hne. rewrite list_lookup_insert_ne by congruence.
      now apply lookup_app_l. }
  split_and!.
  - assert (Hcase : p = Refs.RUndef \/ p <> Refs.RUndef)
      by (destruct p; (now left) || (right; discriminate)).
    destruct Hcase as [->|Hp].
    + (* the default props object is allocated first *)
      destruct (Hadd (h ++ [Refs.CObject []])%list (Refs.RRef (length h)) ev)
        as (E1 & E2 & E3 & E4); [now rewrite lookup_app_l|discriminate|].
      rewrite length_app in *. simpl in *.
      exists (length h + 1)%nat. split_and!; try assumption; try lia.
      intros _. rewrite E4 by lia. now apply list_lookup_middle.
    + destruct (Hadd h p ev Harr Hp) as (E1 & E2 & E3 & E4).
      exists (length h). split_and!; try assumption; try lia.
      * rewrite E3. destruct p; try reflexivity. contradiction.
      * intros ->. contradiction.
  - destruct (Hadd (h ++ [Refs.CObject [("duration", d)]])%list
                (Refs.RRef (length h)) SLEEP_EVENT)
      as (E1 & E2 & E3 & E4); [now rewrite lookup_app_l|discriminate|].
    rewrite length_app in *. simpl in *.
    exists (length h + 1)%nat. split_and!; try assumption.
    unfold Refs.sleep. simpl. rewrite E4 by lia.
    now apply list_lookup_middle.
  - intros l Hl Hne. split.
    + now apply add_frame.
    + now apply sleep_frame.
Qed.

Lemma refs_add_shares_props_witness :
  let b := snd (Refs.create "a" caller_heap) in
  let h := fst (Refs.create "a" caller_heap) in
  h !! Refs.items b = Some (Refs.CArray [])
  /\ Refs.elems_of (Refs.add "x" (Refs.RRef 0) b h) (Refs.items b)
     = [Refs.RRef 3].
Proof.
  split; [reflexivity|].
  destruct (refs_add_shares_props "x" (Refs.RRef 0) Refs.RUndef
              (snd (Refs.create "a" caller_heap))
              (fst (Refs.create "a" caller_heap)) [] eq_refl)
    as ((step & E & _) & _).
  reflexivity.
Defined.

(** * The immediate bridge *)

Section ImmediateFacts.

Import Immediate.

Implicit Types (w : world) (next : value -> world -> world).

(** ** Turns take events off the front of the queue *)

Lemma consumes_refl w : consumes w w.
Proof.
  split; [reflexivity|]. exists 0%nat, []. simpl.
  rewrite drop_0, app_nil_r. split_and!; try reflexivity. lia.
Qed.

Lemma heard_same_emitter w w' item :
  _emitter (fst w') = _emitter (fst w) -> heard w' item = heard w item.
Proof. intros H. unfold heard, listeners. now rewrite H. Qed.

Lemma filter_heard_same w w' l :
  _emitter (fst w') = _emitter (fst w) ->
  List.filter (heard w') l = List.filter (heard w) l.
Proof.
  intros H. induction l as [|a l IH]; simpl; [reflexivity|].
  now rewrite (heard_same_emitter w w' a H), IH.
Qed.

Lemma consumes_trans w1 w2 w3 :
  consumes w1 w2 -> consumes w2 w3 -> consumes w1 w3.
Proof.
  intros (He1 & k1 & n1 & Hk1 & Hq1 & Hm1 & Hn1)
         (He2 & k2 & n2 & Hk2 & Hq2 & Hm2 & Hn2).
  split; [congruence|].
  exists (k1 + k2)%nat, (n1 ++ n2)%list.
  rewrite Hq1, length_drop in Hk2.
  split_and!.
  - lia.
  - rewrite Hq2, Hq1, drop_drop. reflexivity.
  - rewrite Hm2, Hm1. now rewrite app_assoc.
  - rewrite map_app, Hn1, Hn2, Hq1.
    rewrite (filter_heard_same w1 w2 _ He1).
    rewrite <- map_app, <- List.filter_app. do 2 f_equal.
    rewrite take_take_drop. reflexivity.
Qed.

(** A step that leaves the emitter, the queue and the emitted events as they
    are. *)
Lemma consumes_same w w' :
  _emitter (fst w') = _emitter (fst w) ->
  _eventChain (fst w') = _eventChain (fst w) ->
  emitted (snd w') = emitted (snd w) ->
  consumes w w'.
Proof.
  intros He Hq Hm. split; [exact He|]. exists 0%nat, []. simpl.
  rewrite drop_0, app_nil_r. split_and!; auto. lia.
Qed.

Lemma perform_consumes next (Ht : tame next) l : forall b w,
  consumes w (snd (fold_left (perform next) l (b, w))).
Proof.
  induction l as [|a l IH]; intros b w; simpl; [apply consumes_refl|].
  destruct a as [v| |d v]; simpl.
  - eapply consumes_trans; [apply Ht|apply IH].
  - apply IH.
  - eapply consumes_trans; [|apply IH]. now apply consumes_same.
Qed.

Lemma wrappedCallback_consumes next (Ht : tame next) ev callback p w :
  consumes w (wrappedCallback next ev callback p w).
Proof.
  unfold wrappedCallback.
  pose proof (perform_consumes next Ht (acts (callback p)) false w) as H.
  destruct (fold_left (perform next) (acts (callback p)) (false, w))
    as [isStopped w1]. simpl in H.
  destruct (ends (callback p)) as [res|e].
  - destruct isStopped; [exact H|].
    destruct (is_defined res); [destruct (is_object res)|];
      (eapply consumes_trans; [exact H|apply Ht]).
  - assert (H2 : consumes w (note_error ev e w1)).
    { eapply consumes_trans; [exact H|]. now apply consumes_same. }
    destruct isStopped; [exact H2|].
    eapply consumes_trans; [exact H2|apply Ht].
Qed.

Lemma run_listener_consumes next (Ht : tame next) l p w :
  consumes w (run_listener next l p w).
Proof.
  destruct l as [|ev cb]; simpl.
  - now apply consumes_same.
  - now apply wrappedCallback_consumes.
Qed.

Lemma emit_consumes next (Ht : tame next) ls p : forall w,
  consumes w (emit next ls p w).
Proof.
  unfold emit. induction ls as [|l ls IH]; intros w; simpl.
  - apply consumes_refl.
  - eapply consumes_trans; [|apply IH]. now apply run_listener_consumes.
Qed.

(** Taking the first event off the queue, and going on from there. *)
Lemma consumes_shift w cur q w1 w' :
  _eventChain (fst w) = cur :: q ->
  _emitter (fst w1) = _emitter (fst w) ->
  _eventChain (fst w1) = q ->
  emitted (snd w1)
  = (emitted (snd w)
     ++ (if heard w cur then [(event cur, with_prev (props cur) empty_obj)]
         else []))%list
  \/ (exists p, emitted (snd w1)
               = (emitted (snd w)
                  ++ (if heard w cur then [(event cur, p)] else []))%list) ->
  consumes w1 w' -> consumes w w'.
Proof.
  intros Hq He Hq1 Hm H.
  apply (consumes_trans w w1 w'); [|exact H].
  split; [exact He|].
  assert (Hm' : exists p, emitted (snd w1)
               = (emitted (snd w)
                  ++ (if heard w cur then [(event cur, p)] else []))%list).
  { destruct Hm as [Hm|Hm]; eauto. }
  destruct Hm' as [p Hp].
  exists 1%nat, (if heard w cur then [(event cur, p)] else []).
  rewrite Hq. simpl. rewrite ?take_0, ?drop_0. split_and!; auto; try lia.
  destruct (heard w cur); reflexivity.
Qed.

Lemma processNextEvent_consumes n : forall prev w,
  consumes w (_processNextEvent n prev w).
Proof.
  induction n as [|n IH]; intros prev w; simpl.
  - destruct (_eventChain (fst w)); [now apply consumes_same|].
    apply consumes_refl.
  - destruct (_eventChain (fst w)) as [|cur q] eqn:Hq;
      [now apply consumes_same|].
    destruct (0 <? length (listeners (event cur) w))%nat eqn:Hh.
    + eapply (consumes_shift w cur q); [exact Hq| | | |].
      4: { apply emit_consumes. intros v w0. apply IH. }
      * reflexivity.
      * reflexivity.
      * right. eexists. simpl. unfold heard. rewrite Hh. reflexivity.
    + eapply (consumes_shift w cur q); [exact Hq| | | |apply IH].
      * reflexivity.
      * reflexivity.
      * right. exists VUndef. simpl. unfold heard. rewrite Hh.
        now rewrite app_nil_r.
Qed.

Lemma consumes_shrinks w w' :
  consumes w w' ->
  length (_eventChain (fst w')) <= length (_eventChain (fst w)).
Proof.
  intros (_ & k & new & _ & Hq & _). rewrite Hq, length_drop. lia.
Qed.

(** ** The count of nested calls is enough *)

Lemma perform_agree K next1 next2 (Ht : tame next1)
    (Ha : agree_below K next1 next2) l : forall b w,
  length (_eventChain (fst w)) <= K ->
  fold_left (perform next1) l (b, w) = fold_left (perform next2) l (b, w).
Proof.
  induction l as [|a l IH]; intros b w Hw; simpl; [reflexivity|].
  destruct a as [v| |d v]; simpl.
  - rewrite <- (Ha v w Hw). apply IH.
    pose proof (consumes_shrinks _ _ (Ht v w)). lia.
  - now apply IH.
  - now apply IH.
Qed.

Lemma run_listener_agree K next1 next2 (Ht : tame next1)
    (Ha : agree_below K next1 next2) l p w :
  length (_eventChain (fst w)) <= K ->
  run_listener next1 l p w = run_listener next2 l p w.
Proof.
  intros Hw. destruct l as [|ev cb]; simpl; [reflexivity|].
  unfold wrappedCallback.
  rewrite <- (perform_agree K next1 next2 Ht Ha _ false w Hw).
  pose proof (perform_consumes next1 Ht (acts (cb p)) false w) as H.
  apply consumes_shrinks in H.
  destruct (fold_left (perform next1) (acts (cb p)) (false, w))
    as [isStopped w1]. simpl in H.
  destruct (ends (cb p)) as [res|e].
  - destruct isStopped; [reflexivity|].
    destruct (is_defined res); [destruct (is_object res)|];
      apply Ha; lia.
  - destruct isStopped; [reflexivity|]. apply Ha. simpl. lia.
Qed.

Lemma emit_agree K next1 next2 (Ht : tame next1)
    (Ha : agree_below K next1 next2) ls p : forall w,
  length (_eventChain (fst w)) <= K ->
  emit next1 ls p w = emit next2 ls p w.
Proof.
  unfold emit. induction ls as [|l ls IH]; intros w Hw; simpl; [reflexivity|].
  rewrite <- (run_listener_agree K next1 next2 Ht Ha l p w Hw).
  apply IH.
  pose proof (consumes_shrinks _ _ (run_listener_consumes next1 Ht l p w)).
  lia.
Qed.

(** Any count that is at least the length of the queue gives the same
    turn. *)
Lemma processNextEvent_count n : forall m prev w,
  length (_eventChain (fst w)) <= n ->
  length (_eventChain (fst w)) <= m ->
  _processNextEvent n prev w = _processNextEvent m prev w.
Proof.
  induction n as [|n IH]; intros m prev w Hn Hm.
  - destruct (_eventChain (fst w)) as [|cur q] eqn:Hq; simpl in Hn; [|lia].
    destruct m; simpl; now rewrite Hq.
  - destruct (_eventChain (fst w)) as [|cur q] eqn:Hq.
    + destruct m; simpl; now rewrite Hq.
    + destruct m as [|m]; simpl in Hm; [lia|].
      simpl. rewrite Hq.
      destruct (0 <? length (listeners (event cur) w))%nat.
      * apply (emit_agree (length q)).
        -- intros v w0. apply processNextEvent_consumes.
        -- intros v w0 Hw0. apply IH; simpl in *; lia.
        -- simpl. lia.
      * apply IH; simpl in *; lia.
Qed.


(** ** What a call on the immediate bridge sets off *)

Lemma consumes_frame w w' R :
  consumes w w' ->
  consumes (set_chain (_eventChain (fst w) ++ R) w)
           (set_chain (_eventChain (fst w') ++ R) w').
Proof.
  intros (He & k & new & Hk & Hq & Hm & Hn). split; [exact He|].
  exists k, new. simpl. rewrite length_app. split_and!.
  - lia.
  - rewrite Hq. now rewrite drop_app_le by assumption.
  - exact Hm.
  - rewrite Hn. rewrite take_app_le by assumption.
    reflexivity.
Qed.

Lemma add_consumes ev p w :
  consumes
    (set_chain (_eventChain (fst w)
                ++ [{| event := ev;
                       props := if is_defined p then p else empty_obj |}]) w)
    (add ev p w).
Proof.
  unfold add. simpl. destruct (_isProcessing (fst w)).
  - apply consumes_refl.
  - apply processNextEvent_consumes.
Qed.

Lemma batch_item_add w item :
  batch_item w item = add (event (translate item)) (props (translate item)) w.
Proof.
  unfold batch_item, translate.
  destruct (String.eqb (bevent item) "sleep"
            && truthy (get "duration" (bprops item))); reflexivity.
Qed.

Lemma translate_defined item : is_defined (props (translate item)) = true.
Proof.
  unfold translate.
  destruct (String.eqb (bevent item) "sleep"
            && truthy (get "duration" (bprops item))); simpl;
    [reflexivity|apply js_or_defined].
Qed.

Lemma batch_items_consume events : forall w,
  consumes (set_chain (_eventChain (fst w) ++ map translate events) w)
           (fold_left batch_item events w).
Proof.
  induction events as [|item events IH]; intros w; simpl.
  - rewrite app_nil_r. now apply consumes_same.
  - pose proof (add_consumes (event (translate item))
                  (props (translate item)) w) as H1.
    rewrite translate_defined in H1.
    rewrite <- batch_item_add in H1.
    apply (consumes_frame _ _ (map translate events)) in H1.
    eapply consumes_trans; [|apply IH].
    eapply consumes_trans; [|exact H1].
    apply consumes_same; simpl; try reflexivity.
    rewrite <- app_assoc. simpl. now destruct (translate item).
Qed.

(** X11. First in, first out. Whatever a turn of the immediate bridge sets
    off ([add] on an idle bridge, a timer that fires, a [batch]), it takes
    events off the front of the queue and emits, in their order and each
    once, those of them that have a listener; the others are dropped
    unheard. [batch] first forgets the events still queued: what it emits
    and what it leaves queued are its own items. *)
Theorem immediate_first_in_first_out (w : world) :
  (forall arg, consumes w (fire arg w))
  /\ (forall ev p,
        consumes
          (set_chain
             (_eventChain (fst w)
              ++ [{| event := ev;
                     props := if is_defined p then p else empty_obj |}]) w)
          (add ev p w))
  /\ (forall events,
        consumes (set_chain (map translate events) w) (batch events w)).
Proof.
  split_and!.
  - intros arg. apply processNextEvent_consumes.
  - intros ev p. apply add_consumes.
  - intros events. unfold batch.
    eapply consumes_trans; [|apply batch_items_consume].
    now apply consumes_same.
Qed.

(** Events without listener at the front of the queue. *)
Lemma processNextEvent_skips pre rest prev w : forall n m b b',
  (forall item, In item pre -> heard w item = false) ->
  length (pre ++ rest) <= n -> length rest <= m ->
  _processNextEvent n prev (set_chain (pre ++ rest) (set_processing b w))
  = _processNextEvent m prev (set_chain rest (set_processing b' w)).
Proof.
  induction pre as [|x pre IH]; intros n m b b' Hun Hn Hm.
  - simpl app.
    rewrite (processNextEvent_count n m) by (simpl; assumption).
    destruct rest as [|cur r]; [destruct m; reflexivity|].
    destruct m as [|m]; [simpl in Hm; lia|]. reflexivity.
  - destruct n as [|n]; [simpl in Hn; lia|].
    simpl. unfold heard in Hun.
    assert (Hx : (0 <? length (listeners (event x) w))%nat = false)
      by (apply Hun; now left).
    unfold listeners in *. simpl. rewrite Hx.
    apply (IH n m true b').
    + intros item Hi. apply Hun. now right.
    + simpl in Hn. lia.
    + exact Hm.
Qed.

(** X12. An event without listener leaves no mark. The immediate bridge
    takes it off the queue and goes on with the context it had: a turn on a
    queue that begins with such events is the turn on the queue without
    them, so that their props reach no later event. If nothing follows
    them the bridge is left idle with an empty queue and nothing done; the
    first event with a listener is emitted with [prev] set to the context
    the turn began with. *)
Theorem immediate_skips_unheard (arg : value) (w : world)
    (pre rest : list UIEventChainItem) :
  (forall item, In item pre -> heard w item = false) ->
  fire arg (set_chain (pre ++ rest) w) = fire arg (set_chain rest w)
  /\ (rest = [] ->
      fire arg (set_chain (pre ++ rest) w)
      = ({| _emitter := _emitter (fst w); _eventChain := [];
            _isProcessing := false |}, snd w))
  /\ (forall cur r, rest = cur :: r -> heard w cur = true ->
        exists more,
          emitted (snd (fire arg (set_chain (pre ++ rest) w)))
          = (emitted (snd w)
             ++ (event cur, with_prev (props cur) (resolve_with arg))
                :: more)%list).
Proof.
  intros Hun.
  assert (Hflag : forall q, set_chain q w
                            = set_chain q (set_processing
                                             (_isProcessing (fst w)) w)).
  { intros q. unfold set_chain, set_processing. reflexivity. }
  assert (E : fire arg (set_chain (pre ++ rest) w)
              = fire arg (set_chain rest w)).
  { unfold fire, process. rewrite (Hflag (pre ++ rest)%list), (Hflag rest).
    apply processNextEvent_skips; simpl; auto. }
  split; [exact E|]. split; [intros ->; rewrite E; reflexivity|].
  intros cur r -> Hcur. rewrite E. unfold fire, process. simpl.
  unfold heard, listeners in Hcur. unfold listeners. simpl in *.
  rewrite Hcur.
  match goal with
  | |- context [emit ?nx ?ls ?p ?w0] =>
      destruct (emit_consumes nx
                  (fun v w1 => processNextEvent_consumes _ _ w1) ls p w0)
        as (_ & k & new & _ & _ & Hm & _)
  end.
  rewrite Hm. simpl. rewrite <- app_assoc. simpl. eauto.
Qed.

Lemma immediate_skips_unheard_witness :
  let w : world := (new_UIBridge, no_effects) in
  let pre := [{| event := "nobody"; props := VObj [("k", VNum 1)] |}] in
  (forall item, In item pre -> heard w item = false)
  /\ fire VUndef (set_chain (pre ++ [sleep_item (VNum 5)]) w)
     = fire VUndef (set_chain [sleep_item (VNum 5)] w).
Proof.
  assert (H : forall item,
             In item [{| event := "nobody"; props := VObj [("k", VNum 1)] |}] ->
             heard (new_UIBridge, no_effects) item = false).
  { intros item [<-|[]]. reflexivity. }
  split; [exact H|].
  apply (immediate_skips_unheard VUndef (new_UIBridge, no_effects)
           [{| event := "nobody"; props := VObj [("k", VNum 1)] |}]
           [sleep_item (VNum 5)] H).
Defined.

(** ** A stopped chain *)

Lemma perform_only_stops next l : forall b w,
  (forall a, In a l -> a = Stop) ->
  fold_left (perform next) l (b, w)
  = (b || match l with [] => false | _ => true end, w).
Proof.
  induction l as [|a l IH]; intros b w H; simpl.
  - now rewrite orb_false_r.
  - rewrite (H a (or_introl eq_refl)). simpl.
    rewrite IH by (intros a' Ha'; apply H; now right).
    simpl. now rewrite orb_true_r.
Qed.

(** While the bridge is processing, [add] queues and does nothing else. *)
Lemma adds_while_processing (more : list (string * value)) : forall w,
  _isProcessing (fst w) = true ->
  fold_left (fun w0 e => add (fst e) (snd e) w0) more w
  = set_chain
      (_eventChain (fst w)
       ++ map (fun e => {| event := fst e;
                           props := if is_defined (snd e) then snd e
                                    else empty_obj |}) more) w.
Proof.
  induction more as [|e more IH]; intros w Hp; simpl.
  - rewrite app_nil_r. unfold set_chain. destruct w as [[em q pr] eff].
    reflexivity.
  - unfold add at 2. simpl. rewrite Hp. rewrite IH by exact Hp.
    unfold set_chain. simpl. now rewrite <- app_assoc.
Qed.

(** A call of the continuation on a queue that begins with an event that
    has a listener emits that event, with the argument as [prev]. *)
Lemma fire_emits_first (arg : value) (w : world) (cur : UIEventChainItem)
    (rest : list UIEventChainItem) :
  _eventChain (fst w) = cur :: rest ->
  heard w cur = true ->
  exists more,
    emitted (snd (fire arg w))
    = (emitted (snd w)
       ++ (event cur, with_prev (props cur) (resolve_with arg)) :: more)%list.
Proof.
  intros Hq Hcur. unfold fire, process. rewrite Hq. simpl. rewrite Hq.
  unfold heard in Hcur. rewrite Hcur.
  match goal with
  | |- context [emit ?nx ?ls ?p ?w0] =>
      destruct (emit_consumes nx
                  (fun v w1 => processNextEvent_consumes _ _ w1) ls p w0)
        as (_ & k & new & _ & _ & Hm & _)
  end.
  rewrite Hm. simpl. rewrite <- app_assoc. simpl. eauto.
Qed.

(** X13. A handler that stops wedges the immediate bridge. When the only
    listener of an event calls [stop] and never [next], the turn ends with
    the bridge still marked as processing, and no timer set. A call of
    [add] afterwards only puts its event on the queue: it emits nothing and
    sets no timer; a call of [on] leaves the queue, the mark and what was
    emitted as they are. None of these calls takes the queue up again. A
    timer that was set before the turn does when it fires: the first queued
    event, if it has a listener, is then emitted with the timer's argument
    as [prev]. [clear] empties the queue and marks the bridge idle, so that
    an event with a listener added after it is emitted by [add] itself. *)
Theorem immediate_stop_wedges (w : world) (ev : string) (p : value)
    (callback : UIEventHandler) (more : list (string * value)) :
  _isProcessing (fst w) = false ->
  _eventChain (fst w) = [] ->
  listeners ev w = [Wrapped ev callback] ->
  let ctx := with_prev (if is_defined p then p else empty_obj) empty_obj in
  only_stops (callback ctx) ->
  let w1 := add ev p w in
  let w2 := fold_left (fun w0 e => add (fst e) (snd e) w0) more w1 in
  (_isProcessing (fst w1) = true
   /\ _eventChain (fst w1) = []
   /\ emitted (snd w1) = (emitted (snd w) ++ [(ev, ctx)])%list
   /\ timers (snd w1) = timers (snd w))
  /\ (_isProcessing (fst w2) = true
      /\ _eventChain (fst w2)
         = map (fun e => {| event := fst e;
                            props := if is_defined (snd e) then snd e
                                     else empty_obj |}) more
      /\ snd w2 = snd w1)
  /\ (forall ev' callback',
        _eventChain (fst (on ev' callback' w2)) = _eventChain (fst w2)
        /\ _isProcessing (fst (on ev' callback' w2)) = true
        /\ snd (on ev' callback' w2) = snd w2)
  /\ (forall arg cur rest,
        _eventChain (fst w2) = cur :: rest ->
        heard w2 cur = true ->
        exists emitted_then,
          emitted (snd (fire arg w2))
          = (emitted (snd w2)
             ++ (event cur, with_prev (props cur) (resolve_with arg))
                :: emitted_then)%list)
  /\ (_isProcessing (fst (clear w2)) = false
      /\ _eventChain (fst (clear w2)) = []
      /\ snd (clear w2) = snd w2
      /\ forall ev' p',
           listeners ev' w2 <> [] ->
           exists emitted_then,
             emitted (snd (add ev' p' (clear w2)))
             = (emitted (snd w2)
                ++ (ev', with_prev (if is_defined p' then p' else empty_obj)
                           empty_obj)
                   :: emitted_then)%list).
Proof.
  intros Hidle Hq Hl ctx [Hin Hall] w1 w2.
  assert (Hfire : forall arg cur rest,
             _eventChain (fst w2) = cur :: rest ->
             heard w2 cur = true ->
             exists emitted_then,
               emitted (snd (fire arg w2))
               = (emitted (snd w2)
                  ++ (event cur, with_prev (props cur) (resolve_with arg))
                     :: emitted_then)%list)
    by (intros arg cur rest; apply fire_emits_first).
  assert (Hclear : forall ev' p',
             listeners ev' w2 <> [] ->
             exists emitted_then,
               emitted (snd (add ev' p' (clear w2)))
               = (emitted (snd w2)
                  ++ (ev', with_prev (if is_defined p' then p' else empty_obj)
                             empty_obj)
                     :: emitted_then)%list).
  { intros ev' p' Hne.
    destruct (fire_emits_first VUndef
                (set_chain [{| event := ev';
                               props := if is_defined p' then p'
                                        else empty_obj |}] (clear w2))
                {| event := ev';
                   props := if is_defined p' then p' else empty_obj |} [])
      as [then_ Hm]; [reflexivity| |].
    - unfold heard, listeners in *. simpl.
      destruct (default [] (_emitter (fst w2) !! ev')); [contradiction|].
      reflexivity.
    - exists then_. exact Hm. }
  assert (Hw1 : w1 = match ends (callback ctx) with
                     | Returns _ =>
                         note_emit ev ctx
                           (set_chain [] (set_processing true w))
                     | Throws e =>
                         note_error ev e
                           (note_emit ev ctx
                              (set_chain [] (set_processing true w)))
                     end).
  { subst w1. unfold add. simpl. rewrite Hidle, Hq. unfold process. simpl.
    unfold listeners in *. simpl. rewrite Hl. simpl.
    unfold wrappedCallback. fold ctx.
    rewrite (perform_only_stops _ _ false _ Hall).
    destruct (acts (callback ctx)) as [|a l]; [destruct Hin|]. simpl.
    destruct (ends (callback ctx)); reflexivity. }
  assert (H1 : _isProcessing (fst w1) = true
               /\ _eventChain (fst w1) = []
               /\ emitted (snd w1) = (emitted (snd w) ++ [(ev, ctx)])%list
               /\ timers (snd w1) = timers (snd w)).
  { rewrite Hw1. destruct (ends (callback ctx)); simpl; auto. }
  clearbody w1. destruct H1 as (Hp1 & Hq1 & Hm1 & Ht1).
  assert (Hw2 : w2 = set_chain
                       (_eventChain (fst w1)
                        ++ map (fun e => {| event := fst e;
                                            props := if is_defined (snd e)
                                                     then snd e
                                                     else empty_obj |}) more)
                       w1).
  { subst w2. now apply adds_while_processing. }
  clearbody w2.
  split; [auto|].
  split; [subst w2; rewrite Hq1; simpl; auto|].
  split; [intros ev' callback'; subst w2; simpl; auto|].
  split; [exact Hfire|].
  split_and!; try reflexivity. exact Hclear.
Qed.

Lemma immediate_stop_wedges_witness :
  let hs : UIEventHandler :=
    fun _ => {| acts := [Stop]; ends := Returns VUndef |} in
  let w : world := on "s" hs (new_UIBridge, no_effects) in
  listeners "s" w = [Wrapped "s" hs]
  /\ _eventChain (fst (add "c" VUndef (add "s" VUndef w)))
     = [{| event := "c"; props := empty_obj |}].
Proof.
  split; [reflexivity|].
  destruct (immediate_stop_wedges
              (on "s" (fun _ => {| acts := [Stop]; ends := Returns VUndef |})
                  (new_UIBridge, no_effects))
              "s" VUndef
              (fun _ => {| acts := [Stop]; ends := Returns VUndef |})
              [("c", VUndef)] eq_refl eq_refl eq_refl)
    as (_ & (_ & H & _) & _).
  - split; [now left|]. intros a [<-|[]]. reflexivity.
  - exact H.
Defined.

(** ** A handler that calls the continuation itself *)

(** X14. A handler of the immediate bridge that calls [next] itself and
    returns has the continuation called twice, by itself and then by the
    wrapper, and each call starts an event. With a delay step and another
    event queued behind it, the handler's call emits the delay step, which
    sets its timer, and the wrapper's call emits the event behind it in the
    same turn, with the handler's own props as [prev]: the delay holds
    nothing back. *)
Theorem immediate_second_call_overtakes_delay (w : world) (arg : value)
    (a : string) (pa v d : value) (callback : UIEventHandler)
    (c : UIEventChainItem) (rest : list UIEventChainItem) :
  _eventChain (fst w)
  = {| event := a; props := pa |} :: sleep_item d :: c :: rest ->
  listeners a w = [Wrapped a callback] ->
  listeners SLEEP_EVENT w = [BuiltinSleep] ->
  heard w c = true ->
  let ctx := with_prev pa (resolve_with arg) in
  callback ctx = {| acts := [Next v]; ends := Returns VUndef |} ->
  exists more,
    emitted (snd (fire arg w))
    = (emitted (snd w)
       ++ [(a, ctx);
           (SLEEP_EVENT, with_prev (props (sleep_item d)) (resolve_with v));
           (event c, with_prev (props c) ctx)]
       ++ more)%list.
Proof.
  intros Hq Ha Hs Hc ctx Hcb.
  destruct w as [[em q pr] eff]. simpl in Hq. subst q.
  unfold heard, listeners in *. simpl in *.
  unfold fire, process. simpl. unfold listeners. simpl.
  rewrite Ha. simpl. unfold wrappedCallback. fold ctx. rewrite Hcb. simpl.
  unfold listeners. simpl. rewrite Hs. simpl. rewrite Hc.
  match goal with
  | |- context [emit ?nx ?ls ?p ?w0] =>
      assert (Ht : tame nx)
        by (intros v0 w1;
            exact (processNextEvent_consumes (S (length rest))
                     (resolve_with v0) w1));
      destruct (emit_consumes nx Ht ls p w0)
        as (_ & k & new & _ & _ & Hm & _)
  end.
  rewrite Hm. simpl. exists new. rewrite <- !app_assoc. reflexivity.
Qed.

Lemma immediate_second_call_overtakes_delay_witness :
  let ha : UIEventHandler :=
    fun _ => {| acts := [Next (VObj [("n", VNum 2)])];
                ends := Returns VUndef |} in
  let hc : UIEventHandler := fun _ => {| acts := []; ends := Returns VUndef |} in
  let w : world :=
    set_chain [{| event := "a"; props := empty_obj |};
               sleep_item (VNum 100);
               {| event := "c"; props := empty_obj |}]
      (on "c" hc (on "a" ha (new_UIBridge, no_effects))) in
  heard w {| event := "c"; props := empty_obj |} = true
  /\ map fst (emitted (snd (fire VUndef w))) = ["a"; SLEEP_EVENT; "c"].
Proof.
  split; [reflexivity|].
  destruct (immediate_second_call_overtakes_delay
              (set_chain [{| event := "a"; props := empty_obj |};
                          sleep_item (VNum 100);
                          {| event := "c"; props := empty_obj |}]
                 (on "c" (fun _ => {| acts := []; ends := Returns VUndef |})
                    (on "a" (fun _ => {| acts := [Next (VObj [("n", VNum 2)])];
                                         ends := Returns VUndef |})
                       (new_UIBridge, no_effects))))
              VUndef "a" empty_obj (VObj [("n", VNum 2)]) (VNum 100)
              (fun _ => {| acts := [Next (VObj [("n", VNum 2)])];
                           ends := Returns VUndef |})
              {| event := "c"; props := empty_obj |} []
              eq_refl eq_refl eq_refl eq_refl eq_refl) as [more _].
  reflexivity.
Defined.

(** ** Events added one by one *)

(** On an empty queue the continuation only marks the bridge idle. *)
Lemma perform_on_empty_queue n l : forall w,
  _eventChain (fst w) = [] ->
  ~ In Stop l ->
  exists w',
    fold_left
      (perform (fun nextProps => _processNextEvent n (resolve_with nextProps)))
      l (false, w) = (false, w')
    /\ _eventChain (fst w') = []
    /\ _emitter (fst w') = _emitter (fst w)
    /\ emitted (snd w') = emitted (snd w).
Proof.
  induction l as [|a l IH]; intros w Hq Hns; simpl; [eauto|].
  assert (Hl : ~ In Stop l) by (intros H; apply Hns; now right).
  destruct a as [v| |d v]; simpl.
  - assert (E : _processNextEvent n (resolve_with v) w
                = set_processing false w).
    { destruct n; simpl; now rewrite Hq. }
    rewrite E.
    destruct (IH (set_processing false w) Hq Hl) as (w' & H1 & H2 & H3 & H4).
    exists w'. auto.
  - exfalso. apply Hns. now left.
  - destruct (IH (set_timer d v w) Hq Hl) as (w' & H1 & H2 & H3 & H4).
    exists w'. auto.
Qed.

Lemma emit_on_empty_queue n p ls : forall w,
  _eventChain (fst w) = [] ->
  (forall l, In l ls ->
     exists ev cb, l = Wrapped ev cb /\ ~ In Stop (acts (cb p))) ->
  let w' := emit (fun nextProps =>
                    _processNextEvent n (resolve_with nextProps)) ls p w in
  _eventChain (fst w') = []
  /\ _emitter (fst w') = _emitter (fst w)
  /\ emitted (snd w') = emitted (snd w)
  /\ (ls <> [] -> _isProcessing (fst w') = false).
Proof.
  unfold emit. induction ls as [|l ls IH]; intros w Hq Hls; simpl.
  - split_and!; auto. intros H. contradiction.
  - destruct (Hls l (or_introl eq_refl)) as (ev & cb & -> & Hns).
    simpl. unfold wrappedCallback.
    destruct (perform_on_empty_queue n (acts (cb p)) w Hq Hns)
      as (w1 & E & Hq1 & He1 & Hm1).
    rewrite E.
    assert (Hnext : forall v w0, _eventChain (fst w0) = [] ->
              _processNextEvent n (resolve_with v) w0
              = set_processing false w0).
    { intros v w0 H0. destruct n; simpl; now rewrite H0. }
    set (w2 := match ends (cb p) with
               | Returns _ => set_processing false w1
               | Throws e => set_processing false (note_error ev e w1)
               end).
    assert (E2 : match ends (cb p) with
                 | Returns result =>
                     if is_defined result
                     then if is_object result
                          then _processNextEvent n (resolve_with result) w1
                          else _processNextEvent n
                                 (resolve_with
                                    (VObj [("value", result); ("prev", p)]))
                                 w1
                     else _processNextEvent n (resolve_with p) w1
                 | Throws e =>
                     _processNextEvent n (resolve_with p)
                       (note_error ev e w1)
                 end = w2).
    { subst w2. destruct (ends (cb p)) as [res|e].
      - destruct (is_defined res); [destruct (is_object res)|];
          now apply Hnext.
      - now apply Hnext. }
    rewrite E2.
    assert (H2 : _eventChain (fst w2) = []
                 /\ _emitter (fst w2) = _emitter (fst w)
                 /\ emitted (snd w2) = emitted (snd w)
                 /\ _isProcessing (fst w2) = false).
    { subst w2. destruct (ends (cb p)); simpl; auto. }
    destruct H2 as (Hq2 & He2 & Hm2 & Hp2). clearbody w2.
    destruct (IH w2 Hq2) as (H1 & H3 & H4 & H5).
    { intros l Hl. apply Hls. now right. }
    split_and!; try congruence.
    intros _. destruct ls as [|l' ls']; [exact Hp2|].
    apply H5. discriminate.
Qed.

(** X15. An event whose listeners are all handlers registered with [on],
    none of which calls [stop], when it is added to the idle, empty bridge,
    is emitted with an empty [prev], and the bridge is idle again when
    [add] returns, whatever the handlers gave to [next]; the event added
    next therefore starts from an empty [prev] as well: between events
    added one by one no data is handed on. The delay event is different:
    its built-in listener only sets a timer, so that after [sleep] on the
    idle bridge, which emits the delay event with an empty [prev], the
    bridge is still marked as processing when the call returns, and an
    event added then is queued behind the delay and not emitted by
    [add]. *)
Theorem immediate_add_starts_afresh (w : world) (ev : string) (p : value)
    (ev2 : string) (p2 : value) :
  _isProcessing (fst w) = false ->
  _eventChain (fst w) = [] ->
  let ctx := with_prev (if is_defined p then p else empty_obj) empty_obj in
  listeners ev w <> [] ->
  (forall l, In l (listeners ev w) ->
     exists e cb, l = Wrapped e cb /\ ~ In Stop (acts (cb ctx))) ->
  (_isProcessing (fst (add ev p w)) = false
   /\ _eventChain (fst (add ev p w)) = []
   /\ emitted (snd (add ev p w)) = (emitted (snd w) ++ [(ev, ctx)])%list)
  /\ (listeners ev2 w <> [] ->
      exists more,
        emitted (snd (add ev2 p2 (add ev p w)))
        = (emitted (snd w)
           ++ [(ev, ctx);
               (ev2, with_prev (if is_defined p2 then p2 else empty_obj)
                       empty_obj)]
           ++ more)%list)
  /\ (forall d,
        listeners SLEEP_EVENT w = [BuiltinSleep] ->
        let delayed := sleep d w in
        let queued := {| event := ev2;
                         props := if is_defined p2 then p2 else empty_obj |} in
        _isProcessing (fst delayed) = true
        /\ _eventChain (fst delayed) = []
        /\ emitted (snd delayed)
           = (emitted (snd w)
              ++ [(SLEEP_EVENT,
                   with_prev (VObj [("duration", d)]) empty_obj)])%list
        /\ timers (snd delayed)
           = (timers (snd w)
              ++ [(timer_delay (if is_defined d then d else VNum 0),
                   empty_obj)])%list
        /\ add ev2 p2 delayed = set_chain [queued] delayed).
Proof.
  intros Hidle Hq ctx Hne Hls.
  assert (Hsleep : forall d,
            listeners SLEEP_EVENT w = [BuiltinSleep] ->
            let delayed := sleep d w in
            let queued := {| event := ev2;
                             props := if is_defined p2 then p2
                                      else empty_obj |} in
            _isProcessing (fst delayed) = true
            /\ _eventChain (fst delayed) = []
            /\ emitted (snd delayed)
               = (emitted (snd w)
                  ++ [(SLEEP_EVENT,
                       with_prev (VObj [("duration", d)]) empty_obj)])%list
            /\ timers (snd delayed)
               = (timers (snd w)
                  ++ [(timer_delay (if is_defined d then d else VNum 0),
                       empty_obj)])%list
            /\ add ev2 p2 delayed = set_chain [queued] delayed).
  { intros d Hs delayed queued.
    assert (Hd : delayed
                 = set_timer (timer_delay (if is_defined d then d else VNum 0))
                     empty_obj
                     (note_emit SLEEP_EVENT
                        (with_prev (VObj [("duration", d)]) empty_obj)
                        (set_chain [] (set_processing true w)))).
    { subst delayed. unfold sleep, add. simpl. rewrite Hidle, Hq.
      unfold process. simpl. unfold listeners in *. simpl. rewrite Hs.
      reflexivity. }
    clearbody delayed. subst delayed. simpl. split_and!; reflexivity. }
  assert (Hfirst : forall (w0 : world) (e : string) (q : value),
            _isProcessing (fst w0) = false ->
            _eventChain (fst w0) = [] ->
            listeners e w0 <> [] ->
            add e q w0
            = emit (fun nextProps =>
                      _processNextEvent 0 (resolve_with nextProps))
                   (listeners e w0)
                   (with_prev (if is_defined q then q else empty_obj) empty_obj)
                   (note_emit e
                      (with_prev (if is_defined q then q else empty_obj)
                                 empty_obj)
                      (set_chain [] (set_processing true w0)))).
  { intros w0 e q H1 H2 H3. unfold add. simpl. rewrite H1, H2.
    unfold process. simpl. unfold listeners in *. simpl.
    destruct (default [] (_emitter (fst w0) !! e)) as [|l ls];
      [contradiction|reflexivity]. }
  assert (H1 : _isProcessing (fst (add ev p w)) = false
               /\ _eventChain (fst (add ev p w)) = []
               /\ emitted (snd (add ev p w))
                  = (emitted (snd w) ++ [(ev, ctx)])%list
               /\ _emitter (fst (add ev p w)) = _emitter (fst w)).
  { rewrite (Hfirst w ev p Hidle Hq Hne). fold ctx.
    destruct (emit_on_empty_queue 0 ctx (listeners ev w)
                (note_emit ev ctx (set_chain [] (set_processing true w)))
                eq_refl Hls) as (E1 & E2 & E3 & E4).
    split_and!; auto. }
  destruct H1 as (Hp1 & Hq1 & Hm1 & He1).
  split; [auto|]. split; [|exact Hsleep].
  intros Hne2.
  assert (Hne2' : listeners ev2 (add ev p w) <> []).
  { unfold listeners in *. now rewrite He1. }
  rewrite (Hfirst (add ev p w) ev2 p2 Hp1 Hq1 Hne2').
  match goal with
  | |- context [emit ?nx ?ls ?q ?w0] =>
      assert (Ht : tame nx)
        by (intros v0 w1;
            exact (processNextEvent_consumes 0 (resolve_with v0) w1));
      destruct (emit_consumes nx Ht ls q w0)
        as (_ & k & new & _ & _ & Hm & _)
  end.
  rewrite Hm. simpl. rewrite Hm1. exists new.
  rewrite <- !app_assoc. reflexivity.
Qed.

Lemma immediate_add_starts_afresh_witness :
  let ha : UIEventHandler :=
    fun _ => {| acts := [Next (VObj [("n", VNum 2)])];
                ends := Returns VUndef |} in
  let w : world := on "b" ha (on "a" ha (new_UIBridge, no_effects)) in
  listeners "a" w <> []
  /\ emitted (snd (add "b" VUndef (add "a" VUndef w)))
     = [("a", VObj [("prev", VObj [])]); ("b", VObj [("prev", VObj [])])].
Proof.
  split; [discriminate|].
  destruct (immediate_add_starts_afresh
              (on "b" (fun _ => {| acts := [Next (VObj [("n", VNum 2)])];
                                   ends := Returns VUndef |})
                 (on "a" (fun _ => {| acts := [Next (VObj [("n", VNum 2)])];
                                      ends := Returns VUndef |})
                    (new_UIBridge, no_effects)))
              "a" VUndef "b" VUndef eq_refl eq_refl) as (_ & H & _).
  - discriminate.
  - intros l [<-|[]]. eexists _, _. split; [reflexivity|].
    intros [H|[]]. discriminate H.
  - reflexivity.
Defined.

End ImmediateFacts.
